(** * yt-audio-dl: title cleaning, name sanitising, artist resolution and
      the organise pipeline, embedded from the Python sources

    A Python [str] is a sequence of Unicode code points; it is modelled as a
    list of code points ([pystr]).  The regular expressions of the sources
    are kept as syntax trees and run by a backtracking matcher that follows
    the order in which Python's [re] explores alternatives (left
    alternative first, greedy repetition first), so that [re.sub] is the
    leftmost, non-overlapping substitution of the sources. *)

From Stdlib Require Import ZArith NArith Ascii String List Lia Decimal.
From stdpp Require Import base decidable option list gmap.

Local Open Scope N_scope.

(** ** Strings *)

Module PyStr.

Abbreviation pystr := (list N).

(** ASCII literal to code points. *)
Definition str (s : string) : pystr :=
  List.map (fun a => N.of_nat (nat_of_ascii a)) (list_ascii_of_string s).

(** [str.isspace] for one code point, which is also the class [\s] of a
    [str] pattern: both go through the same Unicode whitespace table. *)
Definition isspace (c : N) : bool :=
  ((9 <=? c) && (c <=? 13)) || ((28 <=? c) && (c <=? 32))
  || (c =? 133) || (c =? 160) || (c =? 5760)
  || ((8192 <=? c) && (c <=? 8202))
  || (c =? 8232) || (c =? 8233) || (c =? 8239) || (c =? 8287) || (c =? 12288).

(** [s.lstrip()], [s.rstrip()] and [s.strip()] with no argument. *)
Fixpoint lstrip (s : pystr) : pystr :=
  match s with
  | c :: s' => if isspace c then lstrip s' else s
  | [] => []
  end.

Fixpoint rstrip (s : pystr) : pystr :=
  match s with
  | [] => []
  | c :: s' =>
      match rstrip s' with
      | [] => if isspace c then [] else [c]
      | r => c :: r
      end
  end.

Definition strip (s : pystr) : pystr := rstrip (lstrip s).

(** Truthiness of a string: [if s:] holds for the non-empty ones. *)
Definition truthy (s : pystr) : bool :=
  match s with [] => false | _ => true end.

(** [a or b] on strings. *)
Definition or_else (a b : pystr) : pystr := if truthy a then a else b.

(** [s.endswith(suf)] and [s.removesuffix(suf)]. *)
Fixpoint startswith (s pre : pystr) : bool :=
  match pre, s with
  | [], _ => true
  | p :: pre', c :: s' => (c =? p) && startswith s' pre'
  | _ :: _, [] => false
  end.

Definition endswith (s suf : pystr) : bool := startswith (rev s) (rev suf).

Definition removesuffix (s suf : pystr) : pystr :=
  if truthy suf && endswith s suf
  then firstn (length s - length suf) s
  else s.

End PyStr.
Export PyStr.

(** ** Regular expressions of the [re] module *)

Module Re.

(** Character classes used by the sources. *)
Inductive charclass :=
| Space                      (* \s *)
| OneOf (cs : list N).       (* [...] *)

Definition in_class (k : charclass) (c : N) : bool :=
  match k with
  | Space => isspace c
  | OneOf cs => existsb (N.eqb c) cs
  end.

(** The patterns of the sources need literals, classes, concatenation,
    ordered alternation and greedy repetition of a class ([\s*], [\s+],
    [\s{2,}]). *)
Inductive regex :=
| Eps
| Lit (c : N)
| Cls (k : charclass)
| Cat (r1 r2 : regex)
| Alt (r1 r2 : regex)
| Rep (k : charclass) (min : nat).  (* k{min,}, greedy *)

(** Simple lower-casing of the characters that can meet an ASCII letter of
    a pattern under [re.IGNORECASE]: ASCII capitals, and the two code
    points whose lower case is an ASCII letter (U+0130 to i, U+212A to k). *)
Definition lower (c : N) : N :=
  if (65 <=? c) && (c <=? 90) then c + 32
  else if c =? 304 then 105
  else if c =? 8490 then 107
  else c.

(** A literal of a pattern compiled with [re.IGNORECASE] accepts the
    characters with the same lower case, and for i and s the extra
    equivalents U+0131 (dotless i) and U+017F (long s). *)
Definition lit_matches (icase : bool) (p c : N) : bool :=
  if icase
  then (lower c =? lower p)
       || ((lower p =? 105) && (c =? 305))
       || ((lower p =? 115) && (c =? 383))
  else c =? p.

(** Greedy repetition: take one more character of the class when possible
    and fall back to stopping here when the rest of the pattern fails. *)
Fixpoint rep {A} (k : charclass) (min : nat) (s : pystr)
    (cont : pystr -> option A) : option A :=
  let stop := match min with O => cont s | S _ => None end in
  match s with
  | c :: s' =>
      if in_class k c
      then match rep k (pred min) s' cont with
           | Some x => Some x
           | None => stop
           end
      else stop
  | [] => stop
  end.

(** Backtracking matcher in continuation-passing style: [exec icase r s cont]
    matches [r] on a prefix of [s] and hands the rest to [cont]; the first
    success in Python's search order is returned. *)
Fixpoint exec {A} (icase : bool) (r : regex) (s : pystr)
    (cont : pystr -> option A) : option A :=
  match r with
  | Eps => cont s
  | Lit p =>
      match s with
      | c :: s' => if lit_matches icase p c then cont s' else None
      | [] => None
      end
  | Cls k =>
      match s with
      | c :: s' => if in_class k c then cont s' else None
      | [] => None
      end
  | Cat r1 r2 => exec icase r1 s (fun s' => exec icase r2 s' cont)
  | Alt r1 r2 =>
      match exec icase r1 s cont with
      | Some x => Some x
      | None => exec icase r2 s cont
      end
  | Rep k min => rep k min s cont
  end.

(** [pattern.match(s)] at the start of [s]: the text left after the match. *)
Definition match_prefix (icase : bool) (r : regex) (s : pystr) : option pystr :=
  exec icase r s Some.

(** [pattern.sub(repl, s)]: scan from the left; where the pattern matches,
    emit [repl] and resume after the match, otherwise copy one character.
    [skip] counts the characters of the current match still to be dropped.
    An empty match emits [repl] and copies the character (Python 3.7+). *)
Fixpoint sub_from (icase : bool) (r : regex) (repl : pystr)
    (skip : nat) (s : pystr) : pystr :=
  match s with
  | [] =>
      match skip, match_prefix icase r [] with
      | O, Some _ => repl
      | _, _ => []
      end
  | c :: s' =>
      match skip with
      | S n => sub_from icase r repl n s'
      | O =>
          match match_prefix icase r s with
          | Some rest =>
              match (length s - length rest)%nat with
              | O => repl ++ c :: sub_from icase r repl O s'
              | S n => repl ++ sub_from icase r repl n s'
              end
          | None => c :: sub_from icase r repl O s'
          end
      end
  end.

Definition sub (icase : bool) (r : regex) (repl s : pystr) : pystr :=
  sub_from icase r repl O s.

(** Helpers to write patterns. *)
Definition lits (s : string) : regex :=
  fold_right (fun c r => Cat (Lit c) r) Eps (str s).

Fixpoint alts (rs : list regex) : regex :=
  match rs with
  | [] => Cls (OneOf [])
  | [r] => r
  | r :: rs' => Alt r (alts rs')
  end.

Fixpoint cats (rs : list regex) : regex :=
  match rs with
  | [] => Eps
  | r :: rs' => Cat r (cats rs')
  end.

End Re.
Export Re.

(** ** metadata.py *)

(** [_TITLE_NOISE]:
    \s*[\(\[]\s*(?:Official\s+(?:Video|Audio|Music\s+Video|Lyric\s+Video|Visualizer)
                 |Lyric\s+Video|Audio\s+Only|Audio|HQ|HD|4K)\s*[\)\]]
    compiled with [re.IGNORECASE]. *)
Definition noise_phrases : regex :=
  alts
    [ cats [ lits "Official"; Rep Space 1;
             alts [ lits "Video";
                    lits "Audio";
                    cats [lits "Music"; Rep Space 1; lits "Video"];
                    cats [lits "Lyric"; Rep Space 1; lits "Video"];
                    lits "Visualizer" ] ];
      cats [lits "Lyric"; Rep Space 1; lits "Video"];
      cats [lits "Audio"; Rep Space 1; lits "Only"];
      lits "Audio";
      lits "HQ";
      lits "HD";
      lits "4K" ].

Definition _TITLE_NOISE : regex :=
  cats [ Rep Space 0; Cls (OneOf [40; 91]); Rep Space 0;
         noise_phrases;
         Rep Space 0; Cls (OneOf [41; 93]) ].

(** [re.sub(r"\s{2,}", " ", cleaned)] *)
Definition collapse_spaces (s : pystr) : pystr :=
  sub false (Rep Space 2) (str " ") s.

Definition strip_noise (title : pystr) : pystr :=
  sub true _TITLE_NOISE [] title.

(** [clean_title] *)
Definition clean_title (title : pystr) : pystr :=
  let cleaned := strip_noise title in
  let cleaned := strip (collapse_spaces cleaned) in
  or_else cleaned title.


(** ** __main__.py: [sanitize_filename] *)

(** The class of the first substitution: less-than, greater-than, colon,
    double quote, slash, backslash, vertical bar, question mark, star. *)
Definition illegal_chars : list N := [60; 62; 58; 34; 47; 92; 124; 63; 42].

Definition sanitize_filename (name : pystr) : pystr :=
  let name := sub false (Cls (OneOf illegal_chars)) [] name in
  let name := strip (sub false (Rep Space 1) (str " ") name) in
  firstn 200 name.


(** ** Declarative reading of the patterns, used to state properties *)

Inductive matches (icase : bool) : regex -> pystr -> Prop :=
| M_eps : matches icase Eps []
| M_lit p c : lit_matches icase p c = true -> matches icase (Lit p) [c]
| M_cls k c : in_class k c = true -> matches icase (Cls k) [c]
| M_cat r1 r2 w1 w2 :
    matches icase r1 w1 -> matches icase r2 w2 -> matches icase (Cat r1 r2) (w1 ++ w2)
| M_alt_l r1 r2 w : matches icase r1 w -> matches icase (Alt r1 r2) w
| M_alt_r r1 r2 w : matches icase r2 w -> matches icase (Alt r1 r2) w
| M_rep k min w :
    Forall (fun c => in_class k c = true) w -> (min <= length w)%nat ->
    matches icase (Rep k min) w.

Fixpoint span_len (k : charclass) (s : pystr) : nat :=
  match s with
  | c :: s' => if in_class k c then S (span_len k s') else O
  | [] => O
  end.

Fixpoint span_rest (k : charclass) (s : pystr) : pystr :=
  match s with
  | c :: s' => if in_class k c then span_rest k s' else s
  | [] => []
  end.

Definition head_space (s : pystr) : bool :=
  match s with c :: _ => isspace c | [] => false end.

Fixpoint ws_run_free (s : pystr) : bool :=
  match s with
  | [] => true
  | c :: t => negb (isspace c && head_space t) && ws_run_free t
  end.

(** [re.sub] of a run of at least [m] whitespace characters by one space. *)
Definition squeeze (m : nat) (s : pystr) : pystr :=
  sub false (Rep Space m) (str " ") s.

(** ** The noise vocabulary as the specification words it *)
Definition vocabulary : list (list string) :=
  [ ["Official"; "Video"]; ["Official"; "Audio"]; ["Official"; "Music"; "Video"];
    ["Official"; "Lyric"; "Video"]; ["Official"; "Visualizer"];
    ["Lyric"; "Video"]; ["Audio"; "Only"]; ["Audio"]; ["HQ"]; ["HD"]; ["4K"] ]%string.

Definition all_space (s : pystr) : Prop := Forall (fun c => isspace c = true) s.

Definition same_word (p w : pystr) : Prop :=
  Forall2 (fun pc c => lit_matches true pc c = true) p w.

Inductive spells : list pystr -> pystr -> Prop :=
| spells_last p w : same_word p w -> spells [p] w
| spells_more p ps w gap rest :
    same_word p w -> gap <> [] -> all_space gap -> spells ps rest ->
    spells (p :: ps) (w ++ gap ++ rest).

Definition annotation (seg : pystr) : Prop :=
  exists lead o pad1 content pad2 c phrase,
    seg = lead ++ [o] ++ pad1 ++ content ++ pad2 ++ [c]
    /\ all_space lead /\ all_space pad1 /\ all_space pad2
    /\ In o [40; 91] /\ In c [41; 93]
    /\ In phrase vocabulary /\ spells (List.map str phrase) content.

Inductive erased (P : pystr -> Prop) : pystr -> pystr -> Prop :=
| erased_nil : erased P [] []
| erased_keep c s o : erased P s o -> erased P (c :: s) (c :: o)
| erased_drop seg s o : P seg -> erased P s o -> erased P (seg ++ s) o.

Fixpoint phrase_text (words : list string) : pystr :=
  match words with
  | [] => []
  | [w] => str w
  | w :: ws => str w ++ 32 :: phrase_text ws
  end.

Definition same_text (p w : pystr) : bool :=
  (length p =? length w)%nat
  && forallb (fun pc => lit_matches true (fst pc) (snd pc)) (combine p w).

Definition exact_phrase (content : pystr) : bool :=
  existsb (fun ph => same_text (phrase_text ph) (strip content)) vocabulary.

(** ** metadata.py: artists *)

(** A sidecar ([.info.json]) is a JSON object; the keys the sources read
    ([title], [artist], [creator], [uploader], [channel], [id],
    [upload_date], [duration]) are looked up with [dict.get].  Their values
    are taken to be strings, as the annotations [get_artist(...) -> str] and
    [clean_title(title: str)] have them. *)
Abbreviation info := (gmap (list N) (list N)).

(** The loop of [get_artist]: the first key whose value is truthy. *)
Fixpoint first_truthy (d : info) (keys : list pystr) (default : pystr) : pystr :=
  match keys with
  | [] => default
  | key :: keys' =>
      match d !! key with
      | Some val => if truthy val then val else first_truthy d keys' default
      | None => first_truthy d keys' default
      end
  end.

Definition get_artist (d : info) : pystr :=
  first_truthy d [str "artist"; str "creator"; str "uploader"; str "channel"]
    (str "Unknown Artist").

(** The set built by the loop of [determine_album_artist]. *)
Definition artist_set (infos : list info) : gset pystr :=
  fold_left (fun artists d => {[get_artist d]} ∪ artists) infos ∅.

Definition determine_album_artist (infos : list info) : pystr :=
  let artists := artist_set infos in
  if decide (size artists = 1%nat)
  then match elements artists with
       | a :: _ => a                      (* artists.pop() *)
       | [] => str "Various Artists"
       end
  else str "Various Artists".

(** ** Numbers in f-strings *)

Fixpoint uint_digits (u : Decimal.uint) : pystr :=
  match u with
  | Decimal.Nil => []
  | Decimal.D0 u => 48 :: uint_digits u
  | Decimal.D1 u => 49 :: uint_digits u
  | Decimal.D2 u => 50 :: uint_digits u
  | Decimal.D3 u => 51 :: uint_digits u
  | Decimal.D4 u => 52 :: uint_digits u
  | Decimal.D5 u => 53 :: uint_digits u
  | Decimal.D6 u => 54 :: uint_digits u
  | Decimal.D7 u => 55 :: uint_digits u
  | Decimal.D8 u => 56 :: uint_digits u
  | Decimal.D9 u => 57 :: uint_digits u
  end.

(** [str(n)] and [{n}] for a natural number. *)
Definition decimal (n : nat) : pystr := uint_digits (Nat.to_uint n).

Definition pad_left (width : nat) (fill : N) (s : pystr) : pystr :=
  repeat fill (width - length s) ++ s.

(** [{n:02d}] and [{n:3d}]. *)
Definition format_02d (n : nat) : pystr := pad_left 2 48 (decimal n).
Definition format_3d (n : nat) : pystr := pad_left 3 32 (decimal n).

(** ** pathlib *)

(** A path is the list of its components, the outermost first. *)
Abbreviation path := (list (list N)).

Module Path.

(** [p.name] *)
Definition name (p : path) : pystr := List.last p [].

(** [name.rfind('.')] *)
Fixpoint rfind_dot (s : pystr) (i : nat) (found : option nat) : option nat :=
  match s with
  | [] => found
  | c :: s' => rfind_dot s' (S i) (if c =? 46 then Some i else found)
  end.

Definition suffix_start (nm : pystr) : option nat :=
  match rfind_dot nm O None with
  | Some i => if ((0 <? i) && (i <? length nm - 1))%nat then Some i else None
  | None => None
  end.

(** [p.suffix] and [p.stem] *)
Definition suffix (p : path) : pystr :=
  match suffix_start (name p) with
  | Some i => skipn i (name p)
  | None => []
  end.

Definition stem (p : path) : pystr :=
  match suffix_start (name p) with
  | Some i => firstn i (name p)
  | None => name p
  end.

(** [p / c] for a name [c] without a slash, which is what the sources
    join: the results of [sanitize_filename] and fixed file names.  An empty
    name or a single dot adds no component. *)
Definition div (p : path) (c : pystr) : path :=
  match c with
  | [] => p
  | [46] => p
  | _ => p ++ [c]
  end.

(** [str(p)] *)
Fixpoint join_with (sep : pystr) (parts : list pystr) : pystr :=
  match parts with
  | [] => []
  | [c] => c
  | c :: rest => c ++ sep ++ join_with sep rest
  end.

Definition render (p : path) : pystr := join_with [47] p.

(** Comparison of paths by [sorted]: component by component, each by code
    points. *)
Fixpoint str_leb (a b : pystr) : bool :=
  match a, b with
  | [], _ => true
  | _ :: _, [] => false
  | x :: a', y :: b' => (x <? y) || ((x =? y) && str_leb a' b')
  end.

Fixpoint str_eqb (a b : pystr) : bool :=
  match a, b with
  | [], [] => true
  | x :: a', y :: b' => (x =? y) && str_eqb a' b'
  | _, _ => false
  end.

Fixpoint leb (p q : path) : bool :=
  match p, q with
  | [], _ => true
  | _ :: _, [] => false
  | a :: p', b :: q' =>
      if str_eqb a b then leb p' q' else str_leb a b
  end.

Fixpoint insert_sorted (p : path) (l : list path) : list path :=
  match l with
  | [] => [p]
  | q :: l' => if leb p q then p :: l else q :: insert_sorted p l'
  end.

(** [sorted(paths)] *)
Definition sorted (l : list path) : list path :=
  fold_right insert_sorted [] l.

End Path.

(** ** downloader.py: [normalize_playlist_url] *)

Module Url.

Definition is_hex (c : N) : bool :=
  ((48 <=? c) && (c <=? 57)) || ((65 <=? c) && (c <=? 70))
  || ((97 <=? c) && (c <=? 102)).

Definition hex_val (c : N) : N :=
  if c <=? 57 then c - 48 else if c <=? 70 then c - 55 else c - 87.

(** [unquote_to_bytes] on a run of ASCII characters. *)
Fixpoint unquote_to_bytes (s : pystr) : list N :=
  match s with
  | [] => []
  | c :: s' =>
      if c =? 37
      then match s' with
           | h :: l :: s'' =>
               if is_hex h && is_hex l
               then (16 * hex_val h + hex_val l) :: unquote_to_bytes s''
               else c :: unquote_to_bytes s'
           | _ => c :: unquote_to_bytes s'
           end
      else c :: unquote_to_bytes s'
  end.

Definition is_cont (b : N) : bool := (128 <=? b) && (b <=? 191).
Definition between (lo hi b : N) : bool := (lo <=? b) && (b <=? hi).
Definition cont_bits (b : N) : N := b - 128.

(** [bytes.decode('utf-8', 'replace')]: every maximal ill-formed part
    becomes U+FFFD. *)
Fixpoint utf8_decode (bs : list N) : pystr :=
  match bs with
  | [] => []
  | b1 :: r1 =>
      if b1 <? 128 then b1 :: utf8_decode r1
      else if between 194 223 b1 then
        match r1 with
        | b2 :: r2 =>
            if is_cont b2
            then ((b1 - 192) * 64 + cont_bits b2) :: utf8_decode r2
            else 65533 :: utf8_decode r1
        | [] => [65533]
        end
      else if between 224 239 b1 then
        match r1 with
        | b2 :: r2 =>
            if between (if b1 =? 224 then 160 else 128)
                       (if b1 =? 237 then 159 else 191) b2
            then match r2 with
                 | b3 :: r3 =>
                     if is_cont b3
                     then ((b1 - 224) * 4096 + cont_bits b2 * 64 + cont_bits b3)
                          :: utf8_decode r3
                     else 65533 :: utf8_decode r2
                 | [] => [65533]
                 end
            else 65533 :: utf8_decode r1
        | [] => [65533]
        end
      else if between 240 244 b1 then
        match r1 with
        | b2 :: r2 =>
            if between (if b1 =? 240 then 144 else 128)
                       (if b1 =? 244 then 143 else 191) b2
            then match r2 with
                 | b3 :: r3 =>
                     if is_cont b3
                     then match r3 with
                          | b4 :: r4 =>
                              if is_cont b4
                              then ((b1 - 240) * 262144 + cont_bits b2 * 4096
                                    + cont_bits b3 * 64 + cont_bits b4)
                                   :: utf8_decode r4
                              else 65533 :: utf8_decode r3
                          | [] => [65533]
                          end
                     else 65533 :: utf8_decode r2
                 | [] => [65533]
                 end
            else 65533 :: utf8_decode r1
        | [] => [65533]
        end
      else 65533 :: utf8_decode r1
  end.

(** The split of [unquote] into runs of ASCII and of other characters:
    [ascii_run] is the pending run, kept in reverse. *)
Fixpoint unquote_runs (s : pystr) (ascii_run : pystr) : pystr :=
  match s with
  | [] => utf8_decode (unquote_to_bytes (rev ascii_run))
  | c :: s' =>
      if c <? 128 then unquote_runs s' (c :: ascii_run)
      else utf8_decode (unquote_to_bytes (rev ascii_run)) ++ c :: unquote_runs s' []
  end.

(** [unquote(s)] with the defaults [encoding='utf-8', errors='replace']. *)
Definition unquote (s : pystr) : pystr :=
  if existsb (N.eqb 37) s then unquote_runs s [] else s.

(** [s.split(sep)] for a one-character separator, and [s.split(sep, 1)]. *)
Fixpoint split_on (sep : N) (s : pystr) (piece : pystr) : list pystr :=
  match s with
  | [] => [rev piece]
  | c :: s' =>
      if c =? sep then rev piece :: split_on sep s' []
      else split_on sep s' (c :: piece)
  end.

Fixpoint split_once (sep : N) (s : pystr) (before : pystr) : option (pystr * pystr) :=
  match s with
  | [] => None
  | c :: s' =>
      if c =? sep then Some (rev before, s')
      else split_once sep s' (c :: before)
  end.

Definition replace_char (old new : N) (s : pystr) : pystr :=
  List.map (fun c => if c =? old then new else c) s.

(** [parse_qsl(qs)] with the defaults: blank values dropped, lenient
    parsing, separator [&]. *)
Definition parse_qsl (qs : pystr) : list (pystr * pystr) :=
  let query_args := match qs with [] => [] | _ => split_on 38 qs [] end in
  flat_map
    (fun name_value =>
       match name_value with
       | [] => []
       | _ =>
           match split_once 61 name_value [] with
           | None => []
           | Some (n, v) =>
               match v with
               | [] => []
               | _ => [(unquote (replace_char 43 32 n), unquote (replace_char 43 32 v))]
               end
           end
       end)
    query_args.

(** [parse_qs(qs).get(key, [None])[0]]: the first value recorded for [key]. *)
Fixpoint first_value (key : pystr) (pairs : list (pystr * pystr)) : option pystr :=
  match pairs with
  | [] => None
  | (n, v) :: rest => if Path.str_eqb n key then Some v else first_value key rest
  end.

Definition scheme_char (c : N) : bool :=
  between 97 122 c || between 65 90 c || between 48 57 c
  || (c =? 43) || (c =? 45) || (c =? 46).

Definition is_ascii_alpha (c : N) : bool := between 97 122 c || between 65 90 c.

Fixpoint find_char (c : N) (s : pystr) : option nat :=
  match s with
  | [] => None
  | x :: s' => if x =? c then Some O else option_map S (find_char c s')
  end.

(** [url.lstrip(_WHATWG_C0_CONTROL_OR_SPACE)] *)
Fixpoint lstrip_c0 (s : pystr) : pystr :=
  match s with
  | c :: s' => if c <=? 32 then lstrip_c0 s' else s
  | [] => []
  end.

(** The url with its scheme taken off, when it has one. *)
Definition drop_scheme (url : pystr) : pystr :=
  match find_char 58 url, url with
  | Some (S i), c0 :: _ =>
      if is_ascii_alpha c0 && forallb scheme_char (firstn (S i) url)
      then skipn (S (S i)) url
      else url
  | _, _ => url
  end.

(** [_splitnetloc(url, 2)]: the text between the two slashes and the first
    of slash, question mark and hash. *)
Fixpoint until_delim (s : pystr) : pystr * pystr :=
  match s with
  | [] => ([], [])
  | c :: s' =>
      if (c =? 47) || (c =? 63) || (c =? 35) then ([], s)
      else let '(a, b) := until_delim s' in (c :: a, b)
  end.

Definition has_char (c : N) (s : pystr) : bool := existsb (N.eqb c) s.

Section UrlSplit.

(** The checks that [urlsplit] delegates to [ipaddress] and [unicodedata]
    for a network location with a bracket pair or with characters outside
    ASCII; [false] when they raise [ValueError]. *)
Variable host_check : pystr -> bool.

Definition netloc_ok (netloc : pystr) : bool :=
  let opening := has_char 91 netloc in
  let closing := has_char 93 netloc in
  if xorb opening closing then false
  else if opening then host_check netloc
  else match netloc with
       | [] => true
       | _ => if forallb (fun c => c <? 128) netloc then true else host_check netloc
       end.

(** [urlparse(url).query]; [None] when [urlparse] raises [ValueError]. *)
Definition url_query (url : pystr) : option pystr :=
  let url := lstrip_c0 url in
  let url := List.filter (fun c => negb ((c =? 9) || (c =? 13) || (c =? 10))) url in
  let url := drop_scheme url in
  let '(netloc, url) :=
    match url with
    | 47 :: 47 :: rest => until_delim rest
    | _ => ([], url)
    end in
  let url := match split_once 35 url [] with
             | Some (before, _) => before
             | None => url
             end in
  let query := match split_once 63 url [] with
               | Some (_, after) => after
               | None => []
               end in
  if netloc_ok netloc then Some query else None.

(** [normalize_playlist_url]; [None] stands for the [ValueError] of
    [urlparse]. *)
Definition normalize_playlist_url (url : pystr) : option pystr :=
  match url_query url with
  | None => None
  | Some query =>
      match first_value (str "list") (parse_qsl query) with
      | Some list_id =>
          if truthy list_id
          then Some (str "https://www.youtube.com/playlist?list=" ++ list_id)
          else Some url
      | None => Some url
      end
  end.

End UrlSplit.

End Url.
Import Url.

(** ** downloader.py: records *)

Module PlaylistEntry.
(** The dictionary built per entry by [extract_playlist_info]; [None] is
    Python's [None]. *)
Record t := mk {
  id : option pystr;
  title : option pystr;
  url : option pystr;
  duration : option nat;
  uploader : option pystr
}.
End PlaylistEntry.

Module PlaylistInfo.
Record t := mk {
  title : pystr;
  url : pystr;
  entries : list PlaylistEntry.t;
  uploader : option pystr
}.
Definition track_count (p : t) : nat := length (entries p).
End PlaylistInfo.

Module DownloadResult.
Record t := mk {
  playlist_info : PlaylistInfo.t;
  downloaded_files : list path;
  info_json_files : list path;
  errors : list pystr
}.
End DownloadResult.

(** ** __main__.py: the download log *)

Module Log.
Record track := mk_track {
  track_number : nat;
  video_id : pystr;
  title : pystr;
  artist : pystr;
  filename : pystr;
  duration : option pystr
}.
Record t := mk {
  playlist_url : pystr;
  playlist_title : pystr;
  album : pystr;
  album_artist : pystr;
  download_date : pystr;
  tracks : list track;
  errors : list pystr
}.
End Log.

(** ** Effects *)

(** What the program does to the outside, in the order it does it. *)
Inductive event :=
| Print (line : pystr)                          (* print(line) *)
| PrintErr (line : pystr)                       (* print(line, file=sys.stderr) *)
| Mkdir (dir : path)                            (* dir.mkdir(parents=True, exist_ok=True) *)
| Retag (file : path) (tags : list (pystr * pystr))  (* OggOpus(file), audio[k] = [v], audio.save() *)
| Move (src dst : path)                         (* shutil.move(src, dst) *)
| WriteLog (file : path) (log : Log.t)          (* json.dump(log, open(file, 'w')) *)
| Run (cmd : list pystr)                        (* subprocess.run(cmd) *)
| Sleep (seconds : nat).                        (* time.sleep(seconds) *)

(** How a call ends: it returns, it leaves through [sys.exit], or an
    exception escapes. *)
Inductive outcome (A : Type) :=
| Done (a : A)
| Exit (code : Z)
| Raise (exc : pystr).
Arguments Done {A} a.
Arguments Exit {A} code.
Arguments Raise {A} exc.

Definition M (A : Type) : Type := list event * outcome A.

Definition ret {A} (a : A) : M A := ([], Done a).

Definition bind {A B} (m : M A) (f : A -> M B) : M B :=
  match m with
  | (t, Done a) => let '(t', o) := f a in (t ++ t', o)
  | (t, Exit code) => (t, Exit code)
  | (t, Raise exc) => (t, Raise exc)
  end.

Definition emit (e : event) : M unit := ([e], Done tt).
Definition sys_exit {A} (code : Z) : M A := ([], Exit code).
Definition raise {A} (exc : pystr) : M A := ([], Raise exc).

Notation "x <- m ;; k" := (bind m (fun x => k))
  (at level 100, m at next level, right associativity).
Notation "m ;; k" := (bind m (fun _ => k))
  (at level 100, right associativity).

(** The directories a trace creates. *)
Fixpoint created (t : list event) : list path :=
  match t with
  | [] => []
  | Mkdir dir :: t' => dir :: created t'
  | _ :: t' => created t'
  end.

(** ** The collaborators *)

(** What [ydl.extract_info(url, download=False)] returns. *)
Record RawPlaylist := {
  raw_title : option pystr;                   (* absent: no such key *)
  raw_entries : list (option PlaylistEntry.t);
  raw_uploader : option pystr
}.

(** What [ydl.download([url])] leaves behind: the content of the staging
    directory, and the messages of the entries that failed (with
    [ignoreerrors] the collaborator reports them and goes on). *)
Record Fetched := {
  staged : list path;
  failed : list pystr
}.

Record env := {
  which : pystr -> bool;                      (* shutil.which(cmd) is not None *)
  host_check : pystr -> bool;                 (* see [Url.netloc_ok] *)
  extract_info : pystr -> option RawPlaylist;
  mkdtemp : path;                             (* tempfile.mkdtemp(prefix=...) *)
  download : pystr -> path -> Fetched;
  load_info_json : path -> info;              (* json.load of a sidecar *)
  now : pystr;                                (* datetime.now(timezone.utc).isoformat() *)
  quodlibet_running : bool                    (* pgrep -x quodlibet returns 0 *)
}.

(** ** downloader.py *)

Definition extract_playlist_info (e : env) (u : pystr) : M PlaylistInfo.t :=
  match normalize_playlist_url (host_check e) u with
  | None => raise (str "ValueError")
  | Some u =>
      match extract_info e u with
      | None => raise (str "RuntimeError")
      | Some raw =>
          let entries :=
            flat_map (fun entry => match entry with Some x => [x] | None => [] end)
                     (raw_entries raw) in
          ret (PlaylistInfo.mk
                 (default (str "Unknown Playlist") (raw_title raw))
                 u entries (raw_uploader raw))
      end
  end.

(** The loop that sorts the staging directory into audio files and
    sidecars. *)
Fixpoint collect (paths : list path) : list path * list path :=
  match paths with
  | [] => ([], [])
  | p :: rest =>
      let '(opus, json) := collect rest in
      if Path.str_eqb (Path.suffix p) (str ".opus") then (p :: opus, json)
      else if Path.str_eqb (Path.suffix p) (str ".json")
              && endswith (Path.stem p) (str ".info")
           then (opus, p :: json)
           else (opus, json)
  end.

Definition download_playlist (e : env) (u : pystr) (temp_dir : option path)
    : M DownloadResult.t :=
  match normalize_playlist_url (host_check e) u with
  | None => raise (str "ValueError")
  | Some u =>
      playlist_info <- extract_playlist_info e u ;;
      let temp_dir := default (mkdtemp e) temp_dir in
      emit (Mkdir temp_dir) ;;
      let fetched := download e u temp_dir in
      let '(opus, json) := collect (Path.sorted (staged fetched)) in
      ret (DownloadResult.mk playlist_info opus json [])
  end.

(** ** metadata.py: [embed_metadata] *)

(** [a or b] where [a] may be [None]. *)
Definition opt_or (a : option pystr) (b : pystr) : pystr :=
  match a with
  | Some a => or_else a b
  | None => b
  end.

(** [info.get("title", opus_file.stem)] *)
Definition raw_title_of (opus_file : path) (d : info) : pystr :=
  default (Path.stem opus_file) (d !! str "title").

Definition embed_metadata (opus_file : path) (d : info) (album : pystr)
    (track_number total_tracks : nat) (album_artist : pystr)
    (artist_override album_override : option pystr) : M unit :=
  let title := clean_title (raw_title_of opus_file d) in
  let artist := opt_or artist_override (get_artist d) in
  let album_name := opt_or album_override album in
  let upload_date := default [] (d !! str "upload_date") in
  let date :=
    if truthy upload_date && (4 <=? length upload_date)%nat
    then [(str "date", firstn 4 upload_date)]
    else [] in
  emit (Retag opus_file
          ([ (str "title", title);
             (str "artist", artist);
             (str "album", album_name);
             (str "albumartist", album_artist);
             (str "tracknumber", decimal track_number);
             (str "tracktotal", decimal total_tracks) ] ++ date)).

(** ** __main__.py *)

Definition check_dependencies (e : env) : M unit :=
  let missing :=
    List.filter (fun cmd => negb (which e cmd)) [str "yt-dlp"; str "ffmpeg"] in
  match missing with
  | [] => ret tt
  | _ =>
      emit (PrintErr (str "Error: missing required tools: "
                      ++ Path.join_with (str ", ") missing)) ;;
      emit (PrintErr (str "Install with: sudo apt install -y yt-dlp ffmpeg")) ;;
      sys_exit 1
  end.

(** The lines of the loop of [dry_run], numbered from [i]. *)
Fixpoint dry_run_lines (entries : list PlaylistEntry.t) (i : nat) : M unit :=
  match entries with
  | [] => ret tt
  | entry :: rest =>
      let dur_str :=
        match PlaylistEntry.duration entry with
        | Some (S _ as d) =>
            str " [" ++ decimal (d / 60) ++ str ":" ++ format_02d (d mod 60) ++ str "]"
        | _ => []
        end in
      emit (Print (str "  " ++ format_3d i ++ str ". "
                   ++ default (str "None") (PlaylistEntry.title entry) ++ dur_str)) ;;
      dry_run_lines rest (S i)
  end.

Definition dry_run (e : env) (u : pystr) : M unit :=
  pl <- extract_playlist_info e u ;;
  emit (Print (10 :: str "Playlist: " ++ PlaylistInfo.title pl)) ;;
  emit (Print (str "Tracks:   " ++ decimal (PlaylistInfo.track_count pl))) ;;
  (match PlaylistInfo.uploader pl with
   | Some up => if truthy up then emit (Print (str "Uploader: " ++ up)) else ret tt
   | None => ret tt
   end) ;;
  emit (Print []) ;;
  dry_run_lines (PlaylistInfo.entries pl) 1 ;;
  emit (Print []).

(** The dictionary [info_map]: sidecars by the name without [.info.json]. *)
Definition sidecar_key (info_path : path) : pystr :=
  removesuffix (Path.name info_path) (str ".info.json").

Definition build_info_map (e : env) (info_json_files : list path) : gmap pystr info :=
  fold_left (fun info_map info_path =>
               <[sidecar_key info_path := load_info_json e info_path]> info_map)
            info_json_files ∅.

(** The list [pairs]. *)
Definition pair_up (info_map : gmap pystr info) (downloaded_files : list path)
    : list (path * info) :=
  List.map (fun opus_file => (opus_file, default ∅ (info_map !! Path.stem opus_file)))
           downloaded_files.

(** [artist_override if artist_override else determine_album_artist(all_infos)] *)
Definition resolve_album_artist (artist_override : option pystr)
    (all_infos : list info) : pystr :=
  match artist_override with
  | Some a => if truthy a then a else determine_album_artist all_infos
  | None => determine_album_artist all_infos
  end.

(** [f"{i:02d} - {safe_title}.opus"] *)
Definition dest_name_of (i : nat) (title : pystr) : pystr :=
  format_02d i ++ str " - " ++ sanitize_filename title ++ str ".opus".

(** The loop over [enumerate(pairs, 1)]; [i] is the number of the first
    pair of the list. *)
Fixpoint organize (pairs : list (path * info)) (i total : nat)
    (album_dir : path) (album_name album_artist : pystr)
    (artist_override : option pystr) : M (list Log.track) :=
  match pairs with
  | [] => ret []
  | (opus_file, d) :: rest =>
      embed_metadata opus_file d album_name i total album_artist
                     artist_override None ;;
      let title := clean_title (raw_title_of opus_file d) in
      let dest_name := dest_name_of i title in
      let dest_path := Path.div album_dir dest_name in
      emit (Move opus_file dest_path) ;;
      let entry :=
        Log.mk_track i (default [] (d !! str "id")) title
                     (opt_or artist_override (get_artist d))
                     dest_name (d !! str "duration") in
      emit (Print (str "  " ++ dest_name)) ;;
      log_entries <- organize rest (S i) total album_dir album_name album_artist
                              artist_override ;;
      ret (entry :: log_entries)
  end.

Definition move_and_tag (e : env) (result : DownloadResult.t) (output_dir : path)
    (album_override artist_override : option pystr) : M path :=
  let info_map := build_info_map e (DownloadResult.info_json_files result) in
  let pairs := pair_up info_map (DownloadResult.downloaded_files result) in
  match pairs with
  | [] =>
      emit (PrintErr (str "No tracks were downloaded.")) ;;
      sys_exit 1
  | _ =>
      let all_infos := List.map snd pairs in
      let pl := DownloadResult.playlist_info result in
      let album_name := opt_or album_override (PlaylistInfo.title pl) in
      let album_artist := resolve_album_artist artist_override all_infos in
      let safe_artist := sanitize_filename album_artist in
      let safe_album := sanitize_filename album_name in
      let album_dir := Path.div (Path.div output_dir safe_artist) safe_album in
      emit (Mkdir album_dir) ;;
      log_entries <- organize pairs 1 (length pairs) album_dir album_name
                              album_artist artist_override ;;
      let log :=
        Log.mk (PlaylistInfo.url pl) (PlaylistInfo.title pl) album_name
               album_artist (now e) log_entries (DownloadResult.errors result) in
      emit (WriteLog (Path.div album_dir (str "download_log.json")) log) ;;
      ret album_dir
  end.

(** ** quodlibet.py *)

Definition register_album (e : env) (album_dir : path) (skip : bool) : M unit :=
  if skip then ret tt
  else if negb (which e (str "quodlibet")) then
    emit (Print (str "Quod Libet not found in PATH, skipping registration."))
  else
    emit (Run [str "pgrep"; str "-x"; str "quodlibet"]) ;;
    if quodlibet_running e then
      emit (Print (str "Registering album with Quod Libet...")) ;;
      emit (Run [str "quodlibet"; str "--add-location=" ++ Path.render album_dir]) ;;
      emit (Sleep 3) ;;
      emit (Run [str "quodlibet"; str "--refresh"]) ;;
      emit (Print (str "Album registered with Quod Libet."))
    else
      emit (Print (10 :: str "Quod Libet is not running. To add the album later, run:"
                   ++ 10 :: str "  quodlibet --add-location=" ++ Path.render album_dir
                   ++ 10 :: str "  quodlibet --refresh")).

(** ** __main__.py: [main], after [parse_args] *)

Record args := {
  url : pystr;
  output_dir : path;
  album_name : option pystr;
  artist_name : option pystr;
  dry_run_flag : bool;        (* args.dry_run *)
  no_quodlibet : bool;
  verbose : bool
}.

Definition main (e : env) (a : args) : M unit :=
  check_dependencies e ;;
  if dry_run_flag a then dry_run e (url a)
  else
    emit (Print (str "Extracting playlist info...")) ;;
    result <- download_playlist e (url a) None ;;
    emit (Print (10 :: str "Downloaded "
                 ++ decimal (length (DownloadResult.downloaded_files result))
                 ++ str " tracks from '"
                 ++ PlaylistInfo.title (DownloadResult.playlist_info result)
                 ++ str "'")) ;;
    match DownloadResult.downloaded_files result with
    | [] =>
        emit (PrintErr (str "No tracks downloaded.")) ;;
        sys_exit 1
    | _ =>
        emit (Print (10 :: str "Tagging and organizing files...")) ;;
        album_dir <- move_and_tag e result (output_dir a) (album_name a)
                                  (artist_name a) ;;
        emit (Print (10 :: str "Album saved to: " ++ Path.render album_dir)) ;;
        register_album e album_dir (no_quodlibet a) ;;
        emit (Print (10 :: str "Done!"))
    end.

(** ** A sample run, used to exercise the statements below *)

Module Demo.

Definition staging : path := [str ""; str "tmp"; str "yt-audio-dl-k3"].

Definition sidecar_1 : info :=
  <[str "title" := str "First (Official Video)"]>
    (<[str "artist" := str "A"]> (<[str "id" := str "v1"]> ∅)).

Definition sidecar_2 : info :=
  <[str "title" := str "Second"]>
    (<[str "uploader" := str "B"]> (<[str "id" := str "v2"]> ∅)).

Definition listing : list path :=
  [ staging ++ [str "004 - Fourth.opus"];
    staging ++ [str "002 - Second.info.json"];
    staging ++ [str "001 - First (Official Video).webp"];
    staging ++ [str "002 - Second.opus"];
    staging ++ [str "001 - First (Official Video).opus"];
    staging ++ [str "001 - First (Official Video).info.json"] ].

(** Entry 3 of the playlist could not be fetched. *)
Definition failures : list pystr :=
  [str "ERROR: [youtube] v3: Video unavailable"].

Definition playlist : RawPlaylist :=
  {| raw_title := Some (str "Road Mix");
     raw_entries := [];
     raw_uploader := None |}.

Definition world : env :=
  {| which := fun _ => true;
     host_check := fun _ => true;
     extract_info := fun _ => Some playlist;
     mkdtemp := staging;
     download := fun _ _ => {| staged := listing; failed := failures |};
     load_info_json := fun p =>
       if Path.str_eqb (Path.name p) (str "002 - Second.info.json")
       then sidecar_2 else sidecar_1;
     now := str "2024-05-01T10:00:00+00:00";
     quodlibet_running := false |}.

(** The same world when nothing could be fetched. *)
Definition barren : env :=
  {| which := fun _ => true;
     host_check := fun _ => true;
     extract_info := fun _ => Some playlist;
     mkdtemp := staging;
     download := fun _ _ => {| staged := []; failed := failures |};
     load_info_json := fun _ => ∅;
     now := str "2024-05-01T10:00:00+00:00";
     quodlibet_running := false |}.

(** What [download_playlist] returns in [world]. *)
Definition fetched : DownloadResult.t :=
  DownloadResult.mk
    (PlaylistInfo.mk (str "Road Mix")
                     (str "https://www.youtube.com/playlist?list=PLroad") [] None)
    [ staging ++ [str "001 - First (Official Video).opus"];
      staging ++ [str "002 - Second.opus"];
      staging ++ [str "004 - Fourth.opus"] ]
    [ staging ++ [str "001 - First (Official Video).info.json"];
      staging ++ [str "002 - Second.info.json"] ]
    [].

Definition cli : args :=
  {| url := str "https://www.youtube.com/watch?v=v1&list=PLroad";
     output_dir := [str ""; str "home"; str "u"; str "Music"];
     album_name := None;
     artist_name := None;
     dry_run_flag := false;
     no_quodlibet := true;
     verbose := false |}.

End Demo.

(** ** The log entry of one pair, for stating what the loop records *)

Definition entry_of (i : nat) (opus_file : path) (d : info)
    (artist_override : option pystr) : Log.track :=
  let title := clean_title (raw_title_of opus_file d) in
  Log.mk_track i (default [] (d !! str "id")) title
               (opt_or artist_override (get_artist d))
               (dest_name_of i title) (d !! str "duration").

(** The sidecar paired with an audio file, given the sidecar files. *)
Definition paired_info (e : env) (info_json_files : list path) (opus_file : path) : info :=
  default ∅ (build_info_map e info_json_files !! Path.stem opus_file).

(** ** Further notions used to state properties *)

From Stdlib Require Import DecimalNat.

(** Every whitespace character of the string is the space character. *)
Definition plain_spaces (s : pystr) : Prop :=
  forall c, In c s -> isspace c = true -> c = 32.

(** Reading the number in front of a file name back. *)
Definition is_digit (c : N) : bool := (48 <=? c) && (c <=? 57).

Fixpoint digits_value (s : pystr) (acc : nat) : nat :=
  match s with
  | [] => acc
  | c :: s' => digits_value s' (10 * acc + N.to_nat (c - 48))
  end.

Fixpoint leading_digits (s : pystr) : pystr :=
  match s with
  | c :: s' => if is_digit c then c :: leading_digits s' else []
  | [] => []
  end.

Definition leading_number (s : pystr) : nat := digits_value (leading_digits s) 0.

(** The moves of a trace, in order. *)
Fixpoint moves (t : list event) : list (path * path) :=
  match t with
  | [] => []
  | Move src dst :: t' => (src, dst) :: moves t'
  | _ :: t' => moves t'
  end.

(** Events that only write to the terminal. *)
Definition is_output (ev : event) : Prop :=
  match ev with
  | Print _ | PrintErr _ => True
  | _ => False
  end.

(** The events of the loop of [move_and_tag] for one pair, and for the
    pairs numbered from [i]. *)
Definition track_steps (album_dir : path) (album_name album_artist : pystr)
    (artist_override : option pystr) (total i : nat) (track : path * info)
    : list event :=
  let '(opus_file, d) := track in
  let dest_name := dest_name_of i (clean_title (raw_title_of opus_file d)) in
  fst (embed_metadata opus_file d album_name i total album_artist
                      artist_override None)
  ++ [Move opus_file (Path.div album_dir dest_name);
      Print (str "  " ++ dest_name)].

Fixpoint steps_from (album_dir : path) (album_name album_artist : pystr)
    (artist_override : option pystr) (total i : nat)
    (pairs : list (path * info)) : list event :=
  match pairs with
  | [] => []
  | track :: rest =>
      track_steps album_dir album_name album_artist artist_override total i track
      ++ steps_from album_dir album_name album_artist artist_override total (S i) rest
  end.

Fixpoint entries_from (artist_override : option pystr) (i : nat)
    (pairs : list (path * info)) : list Log.track :=
  match pairs with
  | [] => []
  | (opus_file, d) :: rest =>
      entry_of i opus_file d artist_override :: entries_from artist_override (S i) rest
  end.

(** Every earlier path of the list is at most every later one. *)
Fixpoint ascending (l : list path) : Prop :=
  match l with
  | [] => True
  | p :: rest => Forall (fun q => Path.leb p q = true) rest /\ ascending rest
  end.

(** The values [move_and_tag] computes before its loop. *)
Definition pairs_of (e : env) (result : DownloadResult.t) : list (path * info) :=
  pair_up (build_info_map e (DownloadResult.info_json_files result))
          (DownloadResult.downloaded_files result).

Definition album_name_of (result : DownloadResult.t) (album_override : option pystr)
    : pystr :=
  opt_or album_override (PlaylistInfo.title (DownloadResult.playlist_info result)).

Definition album_artist_of (e : env) (result : DownloadResult.t)
    (artist_override : option pystr) : pystr :=
  resolve_album_artist artist_override (List.map snd (pairs_of e result)).

Definition album_dir_of (e : env) (result : DownloadResult.t) (out : path)
    (album_override artist_override : option pystr) : path :=
  Path.div (Path.div out (sanitize_filename (album_artist_of e result artist_override)))
           (sanitize_filename (album_name_of result album_override)).

Definition log_of (e : env) (result : DownloadResult.t)
    (album_override artist_override : option pystr) : Log.t :=
  Log.mk (PlaylistInfo.url (DownloadResult.playlist_info result))
         (PlaylistInfo.title (DownloadResult.playlist_info result))
         (album_name_of result album_override)
         (album_artist_of e result artist_override)
         (now e)
         (entries_from artist_override 1 (pairs_of e result))
         (DownloadResult.errors result).

(** Events of the loop of [move_and_tag]: neither a directory nor a log. *)
Definition is_track_step (ev : event) : Prop :=
  match ev with
  | Retag _ _ | Move _ _ | Print _ => True
  | _ => False
  end.

(** The commands a trace runs, in order. *)
Fixpoint commands (t : list event) : list (list pystr) :=
  match t with
  | [] => []
  | Run cmd :: t' => cmd :: commands t'
  | _ :: t' => commands t'
  end.

(** A run like [Demo.cli] that leaves the registration with the player on. *)
Definition cli_registering : args :=
  {| url := url Demo.cli;
     output_dir := output_dir Demo.cli;
     album_name := None;
     artist_name := None;
     dry_run_flag := false;
     no_quodlibet := false;
     verbose := false |}.

(** A run like [Demo.cli] that only lists the playlist. *)
Definition cli_listing : args :=
  {| url := url Demo.cli;
     output_dir := output_dir Demo.cli;
     album_name := None;
     artist_name := None;
     dry_run_flag := true;
     no_quodlibet := false;
     verbose := false |}.

(** [Demo.world] without [ffmpeg]. *)
Definition world_without_ffmpeg : env :=
  {| which := fun cmd => negb (Path.str_eqb cmd (str "ffmpeg"));
     host_check := host_check Demo.world;
     extract_info := extract_info Demo.world;
     mkdtemp := mkdtemp Demo.world;
     download := download Demo.world;
     load_info_json := load_info_json Demo.world;
     now := now Demo.world;
     quodlibet_running := false |}.

(** [Demo.world] when the playlist cannot be read. *)
Definition world_offline : env :=
  {| which := which Demo.world;
     host_check := host_check Demo.world;
     extract_info := fun _ => None;
     mkdtemp := mkdtemp Demo.world;
     download := download Demo.world;
     load_info_json := load_info_json Demo.world;
     now := now Demo.world;
     quodlibet_running := false |}.

(** Characters that pass through [urlparse] and [parse_qs] unchanged when
    they stand in the value of a query parameter: anything but TAB, LF, CR
    (removed by [urlparse]), [#] (starts the fragment), [%] (starts an
    escape), [&] (separates parameters) and [+] (decodes to a space). *)
Definition plain_in_query (c : N) : bool :=
  negb ((c =? 9) || (c =? 10) || (c =? 13) || (c =? 35) || (c =? 37)
        || (c =? 38) || (c =? 43)).

(* ================================================================== *)
(** * Properties *)
(* ================================================================== *)

Section RegexFacts.
Context {A : Type}.
Implicit Types (s : pystr) (cont : pystr -> option A).

Lemma rep_sound k : forall s min cont x,
  rep k min s cont = Some x ->
  exists w rest, s = w ++ rest /\ Forall (fun c => in_class k c = true) w
    /\ (min <= length w)%nat /\ cont rest = Some x.
Proof.
  induction s as [|c s IH]; intros min cont x H; simpl in H.
  - destruct min; [|discriminate]. exists [], []. repeat split; auto.
  - destruct (in_class k c) eqn:Hc.
    + destruct (rep k (Nat.pred min) s cont) eqn:Hr.
      * inversion H; subst a. apply IH in Hr as (w & rest & -> & Hw & Hmin & Hk).
        exists (c :: w), rest. repeat split; auto. simpl. lia.
      * destruct min; [|discriminate]. exists [], (c :: s). repeat split; auto.
    + destruct min; [|discriminate]. exists [], (c :: s). repeat split; auto.
Qed.

Lemma exec_sound icase r : forall s cont x,
  exec icase r s cont = Some x ->
  exists w rest, s = w ++ rest /\ matches icase r w /\ cont rest = Some x.
Proof.
  induction r as [|p|k|r1 IH1 r2 IH2|r1 IH1 r2 IH2|k min]; intros s cont x H; simpl in H.
  - exists [], s. repeat split; auto. constructor.
  - destruct s as [|c s]; [discriminate|].
    destruct (lit_matches icase p c) eqn:Hm; [|discriminate].
    exists [c], s. repeat split; auto. by constructor.
  - destruct s as [|c s]; [discriminate|].
    destruct (in_class k c) eqn:Hm; [|discriminate].
    exists [c], s. repeat split; auto. by constructor.
  - apply IH1 in H as (w1 & rest1 & -> & Hm1 & H).
    apply IH2 in H as (w2 & rest2 & -> & Hm2 & H).
    exists (w1 ++ w2), rest2. rewrite <- app_assoc. repeat split; auto.
    by constructor.
  - destruct (exec icase r1 s cont) eqn:H1.
    + inversion H; subst a. apply IH1 in H1 as (w & rest & -> & Hm & Hk).
      exists w, rest. repeat split; auto. by apply M_alt_l.
    + apply IH2 in H as (w & rest & -> & Hm & Hk).
      exists w, rest. repeat split; auto. by apply M_alt_r.
  - apply rep_sound in H as (w & rest & -> & Hw & Hmin & Hk).
    exists w, rest. repeat split; auto. by constructor.
Qed.
End RegexFacts.

Lemma match_prefix_sound icase r s rest :
  match_prefix icase r s = Some rest ->
  exists w, s = w ++ rest /\ matches icase r w.
Proof.
  intros H. apply exec_sound in H as (w & rest' & -> & Hm & Hk).
  inversion Hk; subst. eauto.
Qed.

Lemma sub_from_skip icase r repl : forall s n,
  (n <= length s)%nat ->
  sub_from icase r repl n s = sub_from icase r repl O (skipn n s).
Proof.
  induction s as [|c s IH]; intros n Hn.
  - simpl in Hn. assert (n = O) by lia. subst. reflexivity.
  - destruct n as [|n]; [reflexivity|]. simpl in Hn.
    change (sub_from icase r repl (S n) (c :: s)) with (sub_from icase r repl n s).
    rewrite IH by lia. reflexivity.
Qed.

Lemma sub_nil icase r repl :
  match_prefix icase r [] = None -> sub icase r repl [] = [].
Proof. intros H. unfold sub. simpl. by rewrite H. Qed.

Lemma sub_miss icase r repl c s :
  match_prefix icase r (c :: s) = None ->
  sub icase r repl (c :: s) = c :: sub icase r repl s.
Proof. intros H. unfold sub. simpl sub_from. by rewrite H. Qed.

Lemma sub_from_cons icase r repl c s :
  sub_from icase r repl O (c :: s) =
  match match_prefix icase r (c :: s) with
  | Some rest =>
      match (length (c :: s) - length rest)%nat with
      | O => repl ++ c :: sub_from icase r repl O s
      | S n => repl ++ sub_from icase r repl n s
      end
  | None => c :: sub_from icase r repl O s
  end.
Proof. reflexivity. Qed.

Lemma sub_hit icase r repl s w rest :
  match_prefix icase r s = Some rest -> s = w ++ rest -> w <> [] ->
  sub icase r repl s = repl ++ sub icase r repl rest.
Proof.
  intros H -> Hw. unfold sub.
  destruct w as [|c w]; [done|].
  change ((c :: w) ++ rest) with (c :: (w ++ rest)) in *.
  rewrite sub_from_cons, H.
  assert (Hlen : (length (c :: w ++ rest) - length rest)%nat = S (length w)).
  { simpl. rewrite length_app. lia. }
  rewrite Hlen. rewrite sub_from_skip by (rewrite length_app; lia).
  by rewrite skipn_app, skipn_all, Nat.sub_diag.
Qed.

(** Repetition of a class followed by nothing takes the whole run. *)
Lemma match_prefix_rep icase k min s :
  match_prefix icase (Rep k min) s =
  if (min <=? span_len k s)%nat then Some (span_rest k s) else None.
Proof.
  unfold match_prefix. simpl. revert min.
  induction s as [|c s IH]; intros min; simpl.
  - by destruct min.
  - destruct (in_class k c) eqn:Hc.
    + rewrite IH. destruct min as [|min]; simpl.
      * reflexivity.
      * destruct (min <=? span_len k s)%nat; reflexivity.
    + by destruct min.
Qed.

Lemma span_split k s :
  exists w, s = w ++ span_rest k s /\ length w = span_len k s
            /\ Forall (fun c => in_class k c = true) w.
Proof.
  induction s as [|c s (w & Hs & Hl & Hw)]; simpl.
  - by exists [].
  - destruct (in_class k c) eqn:Hc.
    + exists (c :: w). simpl. repeat split; auto. congruence.
    + by exists [].
Qed.

Lemma span_rest_head k s :
  match span_rest k s with c :: _ => in_class k c = false | [] => True end.
Proof.
  induction s as [|c s IH]; simpl; [done|].
  destruct (in_class k c) eqn:Hc; [done|]. done.
Qed.

(** *** Whitespace squeezing: [re.sub] of [\s{m,}] by one space *)

Lemma squeeze_nil m : (1 <= m)%nat -> squeeze m [] = [].
Proof.
  intros Hm. apply sub_nil. rewrite match_prefix_rep. simpl.
  destruct m; [lia|reflexivity].
Qed.

Lemma squeeze_cons m c s :
  (1 <= m)%nat ->
  squeeze m (c :: s) =
  if (m <=? span_len Space (c :: s))%nat
  then 32 :: squeeze m (span_rest Space (c :: s))
  else c :: squeeze m s.
Proof.
  intros Hm. unfold squeeze.
  destruct (m <=? span_len Space (c :: s))%nat eqn:Hhit.
  - destruct (span_split Space (c :: s)) as (w & Hs & Hl & _).
    pose proof (proj1 (Nat.leb_le _ _) Hhit) as Hle.
    rewrite (sub_hit false _ _ (c :: s) w (span_rest Space (c :: s))); auto.
    + rewrite match_prefix_rep. by rewrite Hhit.
    + intros ->. cbn [length] in Hl. lia.
  - apply sub_miss. rewrite match_prefix_rep. by rewrite Hhit.
Qed.

Lemma span_len_zero s : span_len Space s = O -> head_space s = false.
Proof. destruct s as [|c s]; simpl; [done|]. by destruct (isspace c). Qed.

Lemma span_len_cons k c s :
  span_len k (c :: s) = if in_class k c then S (span_len k s) else O.
Proof. reflexivity. Qed.

#[local] Arguments span_len : simpl never.
#[local] Arguments span_rest : simpl never.

Lemma span_rest_space_head s : head_space (span_rest Space s) = false.
Proof.
  pose proof (span_rest_head Space s) as H.
  destruct (span_rest Space s); simpl in *; auto.
Qed.

Lemma span_rest_shorter k s :
  (1 <= span_len k s)%nat -> (length (span_rest k s) < length s)%nat.
Proof.
  intros H. destruct (span_split k s) as (w & Hs & Hl & _).
  rewrite Hs at 2. rewrite length_app. lia.
Qed.

Lemma span_rest_incl k s x : In x (span_rest k s) -> In x s.
Proof.
  destruct (span_split k s) as (w & Hs & _). intros H.
  rewrite Hs. apply in_or_app. by right.
Qed.

Lemma head_space_squeeze m s :
  (1 <= m)%nat -> head_space (squeeze m s) = head_space s.
Proof.
  intros Hm. destruct s as [|c s]; [by rewrite squeeze_nil|].
  rewrite squeeze_cons by done.
  destruct (m <=? span_len Space (c :: s))%nat eqn:Hhit; [|done].
  apply Nat.leb_le in Hhit. rewrite span_len_cons in Hhit. simpl in *.
  destruct (isspace c); [done|lia].
Qed.

Lemma ws_run_free_squeeze m s :
  (1 <= m <= 2)%nat -> ws_run_free (squeeze m s) = true.
Proof.
  intros Hm. remember (length s) as n eqn:Hn. revert s Hn.
  induction n as [n IH] using lt_wf_ind. intros [|c s] Hn.
  - by rewrite squeeze_nil by lia.
  - rewrite squeeze_cons by lia.
    destruct (m <=? span_len Space (c :: s))%nat eqn:Hhit.
    + apply Nat.leb_le in Hhit.
      cbn [ws_run_free]. rewrite head_space_squeeze, span_rest_space_head by lia.
      rewrite andb_false_r. simpl.
      eapply IH; [|reflexivity]. subst n. apply span_rest_shorter. lia.
    + apply Nat.leb_gt in Hhit.
      cbn [ws_run_free]. rewrite head_space_squeeze by lia.
      rewrite (IH (length s)); [|subst n; simpl; lia|done].
      rewrite andb_true_r. rewrite span_len_cons in Hhit. simpl in Hhit.
      destruct (isspace c) eqn:Hc; [|done].
      rewrite span_len_zero; [done|lia].
Qed.

Lemma squeeze_fixed s : ws_run_free s = true -> squeeze 2 s = s.
Proof.
  induction s as [|c s IH]; intros H.
  - rewrite squeeze_nil by lia. reflexivity.
  - cbn [ws_run_free] in H. apply andb_true_iff in H as [Hc Hs].
    rewrite squeeze_cons by lia.
    assert (Hlen : (span_len Space (c :: s) <= 1)%nat).
    { rewrite span_len_cons. simpl. destruct (isspace c) eqn:Ec; [|lia].
      simpl in Hc. apply negb_true_iff in Hc.
      destruct s as [|d s]; [cbv; lia|]. rewrite span_len_cons. simpl in *.
      rewrite Hc. lia. }
    destruct (2 <=? span_len Space (c :: s))%nat eqn:Hhit.
    + apply Nat.leb_le in Hhit. lia.
    + by rewrite IH.
Qed.

Lemma squeeze_chars m s x :
  (1 <= m)%nat -> In x (squeeze m s) -> In x s \/ x = 32.
Proof.
  intros Hm. remember (length s) as n eqn:Hn. revert s Hn.
  induction n as [n IH] using lt_wf_ind. intros [|c s] Hn.
  - rewrite squeeze_nil by lia. intros [].
  - rewrite squeeze_cons by done.
    destruct (m <=? span_len Space (c :: s))%nat eqn:Hhit.
    + apply Nat.leb_le in Hhit. intros [<-|Hin]; [by right|].
      eapply IH in Hin; [| |reflexivity].
      * destruct Hin as [Hin|]; [left|by right]. by apply span_rest_incl in Hin.
      * subst n. apply span_rest_shorter. lia.
    + intros [<-|Hin]; [left; by left|].
      eapply IH in Hin; [| |reflexivity]; [|subst n; simpl; lia].
      destruct Hin; [left; by right|by right].
Qed.

(** *** Deleting a class: [re.sub] of one class by the empty string *)

Lemma delete_class k s :
  sub false (Cls k) [] s = List.filter (fun c => negb (in_class k c)) s.
Proof.
  induction s as [|c s IH]; [reflexivity|].
  simpl List.filter. destruct (in_class k c) eqn:Hc; simpl negb; cbv iota.
  - rewrite (sub_hit false _ _ (c :: s) [c] s); auto.
    unfold match_prefix. simpl. by rewrite Hc.
  - rewrite sub_miss, IH; auto. unfold match_prefix. simpl. by rewrite Hc.
Qed.

(** *** Stripping *)

Lemma lstrip_split s :
  exists u, s = u ++ lstrip s /\ Forall (fun c => isspace c = true) u.
Proof.
  induction s as [|c s (u & Hs & Hu)]; simpl.
  - by exists [].
  - destruct (isspace c) eqn:Hc.
    + exists (c :: u). simpl. split; [congruence|]. by constructor.
    + by exists [].
Qed.

Lemma head_space_lstrip s : head_space (lstrip s) = false.
Proof.
  induction s as [|c s IH]; simpl; [done|].
  destruct (isspace c) eqn:Hc; [done|]. simpl. done.
Qed.

Lemma lstrip_fixed s : head_space s = false -> lstrip s = s.
Proof. destruct s as [|c s]; simpl; [done|]. by intros ->. Qed.

Lemma rstrip_split s :
  exists v, s = rstrip s ++ v /\ Forall (fun c => isspace c = true) v.
Proof.
  induction s as [|c s (v & Hs & Hv)]; simpl.
  - by exists [].
  - destruct (rstrip s) as [|d r] eqn:Hr.
    + destruct (isspace c) eqn:Hc.
      * exists (c :: v). simpl in *. split; [congruence|]. by constructor.
      * exists v. simpl in *. split; [congruence|done].
    + exists v. split; [|done]. simpl in *. congruence.
Qed.

Lemma rstrip_last s u c : rstrip s = u ++ [c] -> isspace c = false.
Proof.
  revert u. induction s as [|a s IH]; intros u H; simpl in H.
  - by destruct u.
  - destruct (rstrip s) as [|d r] eqn:Hr.
    + destruct (isspace a) eqn:Ha.
      * by destruct u.
      * destruct u as [|b u]; simpl in H.
        -- by inversion H; subst.
        -- inversion H. by destruct u.
    + destruct u as [|b u]; simpl in H.
      * inversion H.
      * inversion H; subst. by eapply IH.
Qed.

Lemma rstrip_head s : rstrip s = [] \/ exists t, head s = head (rstrip s) /\ rstrip s = t /\ t <> [].
Proof.
  destruct s as [|c s]; simpl; [by left|].
  destruct (rstrip s) as [|d r].
  - destruct (isspace c); [by left|]. right. by exists [c].
  - right. by exists (c :: d :: r).
Qed.

Lemma head_space_rstrip s : head_space s = false -> head_space (rstrip s) = false.
Proof.
  intros H. destruct (rstrip_head s) as [->|(t & Hh & _ & _)]; [done|].
  destruct s as [|c s]; [done|]. destruct (rstrip (c :: s)); [done|].
  simpl in *. by inversion Hh; subst.
Qed.

Lemma rstrip_fixed s : rstrip (rstrip s) = rstrip s.
Proof.
  induction s as [|c s IH]; simpl; [done|].
  destruct (rstrip s) as [|d r] eqn:Hr.
  - destruct (isspace c) eqn:Hc; simpl; [done|]. by rewrite Hc.
  - simpl in *. by rewrite IH.
Qed.

Lemma strip_fixed s : strip (strip s) = strip s.
Proof.
  unfold strip.
  rewrite (lstrip_fixed (rstrip (lstrip s))).
  - apply rstrip_fixed.
  - apply head_space_rstrip, head_space_lstrip.
Qed.

Lemma head_space_strip s : head_space (strip s) = false.
Proof. apply head_space_rstrip, head_space_lstrip. Qed.

(** *** Runs of whitespace and factors *)

Lemma ws_run_free_app_r u t : ws_run_free (u ++ t) = true -> ws_run_free t = true.
Proof.
  induction u as [|c u IH]; simpl; [done|].
  intros H. apply andb_true_iff in H as [_ H]. auto.
Qed.

Lemma head_space_app t v : t <> [] -> head_space (t ++ v) = head_space t.
Proof. by destruct t. Qed.

Lemma ws_run_free_app_l t v : ws_run_free (t ++ v) = true -> ws_run_free t = true.
Proof.
  induction t as [|c t IH]; simpl; [done|].
  intros H. apply andb_true_iff in H as [Hc H]. rewrite IH by done.
  rewrite andb_true_r. destruct t as [|d t]; [by rewrite andb_false_r|].
  by rewrite head_space_app in Hc.
Qed.

Lemma ws_run_free_strip s : ws_run_free s = true -> ws_run_free (strip s) = true.
Proof.
  intros H. unfold strip.
  destruct (lstrip_split s) as (u & Hs & _).
  destruct (rstrip_split (lstrip s)) as (v & Ht & _).
  rewrite Hs in H. apply ws_run_free_app_r in H.
  rewrite Ht in H. by apply ws_run_free_app_l in H.
Qed.

Lemma ws_run_free_pairs s :
  ws_run_free s = true ->
  forall u a b v, s = u ++ a :: b :: v -> isspace a && isspace b = false.
Proof.
  intros H u a b v ->. apply ws_run_free_app_r in H. simpl in H.
  apply andb_true_iff in H as [H _]. by apply negb_true_iff in H.
Qed.

(** ** [sanitize_filename] *)
Lemma strip_incl s x : In x (strip s) -> In x s.
Proof.
  unfold strip. intros H.
  destruct (lstrip_split s) as (u & Hs & _).
  destruct (rstrip_split (lstrip s)) as (v & Ht & _).
  rewrite Hs, Ht. apply in_or_app. right. apply in_or_app. by left.
Qed.

Lemma strip_last s u c : strip s = u ++ [c] -> isspace c = false.
Proof. apply rstrip_last. Qed.

Lemma in_class_OneOf cs c : in_class (OneOf cs) c = true <-> In c cs.
Proof.
  simpl. rewrite existsb_exists. split.
  - intros (x & Hx & Heq). apply N.eqb_eq in Heq. by subst.
  - intros H. exists c. split; [done|]. apply N.eqb_refl.
Qed.

Lemma head_space_firstn n s : head_space (firstn n s) = true -> head_space s = true.
Proof. destruct n, s; simpl; done. Qed.

Lemma firstn_incl {A} n (l : list A) x : In x (firstn n l) -> In x l.
Proof. intros H. rewrite <- (firstn_skipn n l). apply in_or_app. by left. Qed.

(** C5, amended. The result of [sanitize_filename] holds none of the nine
    illegal characters, has no two adjacent whitespace characters, does not
    start with whitespace and has at most 200 characters; it does not end
    with whitespace either, unless it was cut to exactly 200 characters. *)
Theorem sanitize_filename_safe (s : pystr) :
  let out := sanitize_filename s in
  (forall c, In c out -> ~ In c illegal_chars)
  /\ (forall u a b v, out = u ++ a :: b :: v -> isspace a && isspace b = false)
  /\ (forall c rest, out = c :: rest -> isspace c = false)
  /\ (length out <= 200)%nat
  /\ ((forall u c, out = u ++ [c] -> isspace c = false) \/ length out = 200%nat).
Proof.
  unfold sanitize_filename. rewrite delete_class.
  set (kept := List.filter _ s).
  change (sub false (Rep Space 1) (str " ") kept) with (squeeze 1 kept).
  set (t := strip (squeeze 1 kept)). cbv zeta.
  split; [|split; [|split; [|split]]].
  - intros c Hc Hbad.
    apply firstn_incl, strip_incl, squeeze_chars in Hc; [|lia].
    destruct Hc as [Hc| ->].
    + apply filter_In in Hc as [_ Hc]. apply negb_true_iff in Hc.
      apply in_class_OneOf in Hbad. congruence.
    + revert Hbad. vm_compute. intuition discriminate.
  - apply ws_run_free_pairs.
    apply (ws_run_free_app_l _ (skipn 200 t)). rewrite firstn_skipn.
    apply ws_run_free_strip, ws_run_free_squeeze. lia.
  - intros c rest Hout.
    destruct (isspace c) eqn:Hc; [|done].
    assert (H : head_space (firstn 200 t) = true) by (by rewrite Hout).
    apply head_space_firstn in H. unfold t in H.
    by rewrite head_space_strip in H.
  - apply firstn_le_length.
  - destruct (le_lt_dec (length t) 200) as [Hle|Hgt].
    + left. rewrite firstn_all2 by done. intros u c. apply strip_last.
    + right. rewrite length_firstn. lia.
Qed.

(** C5 as stated fails: a name cut at 200 characters right after a space
    ends with that space. *)
Lemma sanitize_filename_trailing_space :
  sanitize_filename (repeat 97 199 ++ str " b") = repeat 97 199 ++ str " "
  /\ isspace 32 = true.
Proof. split; vm_compute; reflexivity. Qed.

(** ** [clean_title]: the fallback *)
(** C4, amended. When cleaning and trimming leave nothing, [clean_title]
    returns the raw title unchanged; so the result is empty only for the
    empty raw title. *)
Theorem clean_title_fallback (raw : pystr) :
  (strip (collapse_spaces (strip_noise raw)) = [] -> clean_title raw = raw)
  /\ (raw <> [] -> clean_title raw <> []).
Proof.
  unfold clean_title, or_else. cbv zeta.
  destruct (strip (collapse_spaces (strip_noise raw))) as [|c t]; simpl.
  - split; [done|]. by intros H.
  - split; [done|]. by intros _.
Qed.

Lemma clean_title_fallback_witness :
  clean_title (str "(HD)") = str "(HD)" /\ clean_title (str "(HD)") <> [].
Proof.
  split.
  - apply (proj1 (clean_title_fallback (str "(HD)"))). vm_compute. reflexivity.
  - apply (proj2 (clean_title_fallback (str "(HD)"))). vm_compute. discriminate.
Defined.

(** C4 as stated fails: the empty title is cleaned to the empty title. *)
Lemma clean_title_empty : clean_title [] = [].
Proof. vm_compute. reflexivity. Qed.

(** ** [clean_title]: idempotence *)
(** C2, amended. Cleaning a cleaned title changes nothing, provided the
    cleaned title holds no noise annotation any more (the substitution of
    [_TITLE_NOISE] leaves it as it is). *)
Theorem clean_title_idempotent_settled (x : pystr) :
  strip_noise (clean_title x) = clean_title x ->
  clean_title (clean_title x) = clean_title x.
Proof.
  intros Hsettled.
  assert (Hcases : clean_title x = x
                   \/ clean_title x = strip (collapse_spaces (strip_noise x))).
  { unfold clean_title, or_else; cbv zeta. destruct (truthy _); auto. }
  destruct Hcases as [Hx|Hy].
  - rewrite Hx. exact Hx.
  - unfold clean_title at 1. cbv zeta. rewrite Hsettled.
    set (y := clean_title x) in *.
    assert (Hfix : strip (collapse_spaces y) = y).
    { rewrite Hy. change collapse_spaces with (squeeze 2).
      rewrite squeeze_fixed, strip_fixed; [done|].
      apply ws_run_free_strip, ws_run_free_squeeze. lia. }
    rewrite Hfix. unfold or_else. by destruct (truthy y).
Qed.

Lemma clean_title_idempotent_settled_witness :
  clean_title (clean_title (str "Song (Official Video)"))
  = clean_title (str "Song (Official Video)").
Proof.
  apply (clean_title_idempotent_settled (str "Song (Official Video)")).
  vm_compute. reflexivity.
Defined.

(** C2 as stated fails: removing the inner annotation of a nested one
    uncovers a new annotation, which the second cleaning removes. *)
Lemma clean_title_not_idempotent :
  clean_title (str "a ((HD)HD)") = str "a (HD)"
  /\ clean_title (clean_title (str "a ((HD)HD)")) = str "a"
  /\ clean_title (clean_title (str "a ((HD)HD)")) <> clean_title (str "a ((HD)HD)").
Proof. repeat split; vm_compute; (reflexivity || discriminate). Qed.

(** ** [clean_title]: what is removed *)
Lemma matches_lits_aux (l w : pystr) :
  matches true (fold_right (fun c r => Cat (Lit c) r) Eps l) w -> same_word l w.
Proof.
  revert w. induction l as [|p l IH]; intros w H; simpl in H.
  - inversion H. constructor.
  - inversion H as [| | |r1 r2 w1 w2 H1 H2| | |]; subst.
    inversion H1; subst. simpl. constructor; [done|]. by apply IH.
Qed.

Lemma matches_lits p w : matches true (lits p) w -> same_word (str p) w.
Proof. apply matches_lits_aux. Qed.

Lemma long_nonempty {A} (l : list A) : (1 <= length l)%nat -> l <> [].
Proof. by destruct l; simpl; [lia|]. Qed.

Ltac inv_matches :=
  repeat match goal with
  | H : matches _ (Cat _ _) _ |- _ => inversion H; subst; clear H
  | H : matches _ (Alt _ _) _ |- _ => inversion H; subst; clear H
  | H : matches _ (Rep _ _) _ |- _ => inversion H; subst; clear H
  | H : matches _ (Cls _) _ |- _ => inversion H; subst; clear H
  | H : matches _ Eps _ |- _ => inversion H; subst; clear H
  end.

Ltac spell_out :=
  cbn [List.map]; rewrite ?app_nil_r;
  repeat first
    [ apply spells_last; apply matches_lits; eassumption
    | apply spells_more;
      [ apply matches_lits; eassumption
      | apply long_nonempty; eassumption
      | eassumption
      | ] ].

Ltac try_phrase ph :=
  exists ph; split; [ cbv [vocabulary In]; tauto | solve [spell_out] ].

Lemma noise_phrases_spell w :
  matches true noise_phrases w ->
  exists phrase, In phrase vocabulary /\ spells (List.map str phrase) w.
Proof.
  intros H. cbn [noise_phrases alts cats] in H. inv_matches.
  all: first
    [ try_phrase ["Official"; "Video"]%string
    | try_phrase ["Official"; "Audio"]%string
    | try_phrase ["Official"; "Music"; "Video"]%string
    | try_phrase ["Official"; "Lyric"; "Video"]%string
    | try_phrase ["Official"; "Visualizer"]%string
    | try_phrase ["Lyric"; "Video"]%string
    | try_phrase ["Audio"; "Only"]%string
    | try_phrase ["Audio"]%string
    | try_phrase ["HQ"]%string
    | try_phrase ["HD"]%string
    | try_phrase ["4K"]%string ].
Qed.

Lemma title_noise_annotation seg :
  matches true _TITLE_NOISE seg -> annotation seg.
Proof.
  intros H. unfold _TITLE_NOISE in H. cbn [cats] in H.
  inversion H as [| | |? ? lead w1 Hlead H1| | |]; subst; clear H.
  inversion H1 as [| | |? ? wo w2 Ho H2| | |]; subst; clear H1.
  inversion H2 as [| | |? ? pad1 w3 Hpad1 H3| | |]; subst; clear H2.
  inversion H3 as [| | |? ? content w4 Hcontent H4| | |]; subst; clear H3.
  inversion H4 as [| | |? ? pad2 w5 Hpad2 H5| | |]; subst; clear H4.
  inversion H5 as [| | |? ? wc w6 Hc H6| | |]; subst; clear H5.
  inversion H6; subst; clear H6.
  inversion Hlead; subst. inversion Hpad1; subst. inversion Hpad2; subst.
  inversion Ho as [| |? o Ho'| | | |]; subst.
  inversion Hc as [| |? c Hc'| | | |]; subst.
  apply in_class_OneOf in Ho', Hc'.
  destruct (noise_phrases_spell _ Hcontent) as (phrase & Hin & Hsp).
  exists lead, o, pad1, content, pad2, c, phrase.
  rewrite app_nil_r. repeat split; auto.
Qed.

Lemma annotation_nonempty seg : annotation seg -> seg <> [].
Proof.
  intros (lead & o & pad1 & content & pad2 & c & phrase & -> & _).
  destruct lead; discriminate.
Qed.

Lemma strip_noise_erases title : erased annotation title (strip_noise title).
Proof.
  remember (length title) as n eqn:Hn. revert title Hn.
  induction n as [n IH] using lt_wf_ind. intros [|c s] Hn.
  - unfold strip_noise. rewrite sub_nil by (vm_compute; reflexivity). constructor.
  - unfold strip_noise.
    destruct (match_prefix true _TITLE_NOISE (c :: s)) as [rest|] eqn:Hm.
    + destruct (match_prefix_sound _ _ _ _ Hm) as (w & Hs & Hw).
      apply title_noise_annotation in Hw.
      rewrite (sub_hit _ _ _ _ w rest Hm Hs (annotation_nonempty _ Hw)).
      rewrite Hs. simpl app. apply erased_drop; [done|].
      eapply IH; [|reflexivity]. subst n. rewrite Hs, length_app.
      pose proof (annotation_nonempty _ Hw). destruct w; [done|]. simpl. lia.
    + rewrite sub_miss by done. apply erased_keep.
      eapply IH; [|reflexivity]. subst n. simpl. lia.
Qed.

(** C3, amended. What [clean_title] cuts out of a title before it squeezes
    and trims the whitespace are annotations only: optional whitespace, an
    opening parenthesis or bracket, and up to a closing parenthesis or
    bracket (of either kind) a phrase of the vocabulary, compared without
    regard to case, with optional whitespace around it and any non-empty run
    of whitespace between its words.  The three sample titles are cleaned
    as the specification says. *)
Theorem clean_title_removes_only_noise :
  (forall title, exists kept,
      erased annotation title kept
      /\ clean_title title = or_else (strip (collapse_spaces kept)) title)
  /\ clean_title (str "Song (Official Video)") = str "Song"
  /\ clean_title (str "Track [HD]") = str "Track"
  /\ clean_title (str "Keep (This)") = str "Keep (This)".
Proof.
  split; [|repeat split; vm_compute; reflexivity].
  intros title. exists (strip_noise title). split; [|reflexivity].
  apply strip_noise_erases.
Qed.

(** C3 as stated fails: an annotation whose words are two spaces apart is
    removed, although its content is not exactly a phrase of the vocabulary
    (with surrounding whitespace and case set aside). *)
Lemma clean_title_removes_inexact_phrase :
  clean_title (str "Song (Official  Video)") = str "Song"
  /\ match_prefix true _TITLE_NOISE (str " (Official  Video)") = Some []
  /\ exact_phrase (str "Official  Video") = false
  /\ exact_phrase (str " official video ") = true.
Proof. repeat split; vm_compute; reflexivity. Qed.

(** ** Artists *)

Lemma artist_set_acc (infos : list info) (acc : gset pystr) (a : pystr) :
  a ∈ fold_left (fun artists d => {[get_artist d]} ∪ artists) infos acc
  <-> a ∈ acc \/ exists d, In d infos /\ get_artist d = a.
Proof.
  revert acc. induction infos as [|d infos IH]; intros acc; simpl.
  - split; [auto|]. intros [H|(d & [] & _)]. done.
  - rewrite IH. rewrite elem_of_union, elem_of_singleton. split.
    + intros [[->|H]|(d' & Hin & Heq)]; eauto.
    + intros [H|(d' & [<-|Hin] & Heq)]; eauto.
Qed.

Lemma elem_of_artist_set (infos : list info) (a : pystr) :
  a ∈ artist_set infos <-> exists d, In d infos /\ get_artist d = a.
Proof.
  unfold artist_set. rewrite artist_set_acc. split; [|eauto].
  intros [H|H]; [|done]. by apply not_elem_of_empty in H.
Qed.

(** C1. With no artist override, the album artist of a non-empty list of
    sidecars is the one resolved artist when the set of the resolved artists
    of all the tracks has a single member, and "Various Artists" when it has
    more than one; that set holds exactly the artists [get_artist] resolves
    for the tracks. *)
Theorem album_artist_reconciliation (infos : list info) :
  infos <> [] ->
  (forall a, a ∈ artist_set infos <-> exists d, In d infos /\ get_artist d = a)
  /\ ((exists a, artist_set infos = {[a]} /\ resolve_album_artist None infos = a)
      \/ ((1 < size (artist_set infos))%nat
          /\ resolve_album_artist None infos = str "Various Artists")).
Proof.
  intros Hne. split; [apply elem_of_artist_set|].
  unfold resolve_album_artist, determine_album_artist. cbv zeta.
  destruct (decide (size (artist_set infos) = 1%nat)) as [H1|H1].
  - left. destruct (size_1_elem_of _ H1) as (a & Ha).
    apply leibniz_equiv in Ha. exists a. split; [done|].
    by rewrite Ha, elements_singleton.
  - right. split; [|done].
    assert (size (artist_set infos) <> 0%nat); [|lia].
    apply size_non_empty_iff. intros Hempty.
    destruct infos as [|d infos]; [done|].
    assert (Hin : get_artist d ∈ artist_set (d :: infos)).
    { apply elem_of_artist_set. exists d. split; [by left|done]. }
    rewrite Hempty in Hin. by apply not_elem_of_empty in Hin.
Qed.

Lemma album_artist_reconciliation_witness :
  (exists a, artist_set [Demo.sidecar_1; Demo.sidecar_1] = {[a]}
             /\ resolve_album_artist None [Demo.sidecar_1; Demo.sidecar_1] = a)
  \/ ((1 < size (artist_set [Demo.sidecar_1; Demo.sidecar_1]))%nat
      /\ resolve_album_artist None [Demo.sidecar_1; Demo.sidecar_1]
         = str "Various Artists").
Proof.
  apply (album_artist_reconciliation [Demo.sidecar_1; Demo.sidecar_1]).
  discriminate.
Defined.

Example album_artist_shared :
  determine_album_artist [Demo.sidecar_1; Demo.sidecar_1] = str "A".
Proof. vm_compute. reflexivity. Qed.

Example album_artist_mixed :
  determine_album_artist [Demo.sidecar_1; Demo.sidecar_2; ∅] = str "Various Artists".
Proof. vm_compute. reflexivity. Qed.

Example get_artist_precedence :
  get_artist (<[str "creator" := str "C"]> (<[str "uploader" := str "U"]> ∅)) = str "C".
Proof. vm_compute. reflexivity. Qed.

(** ** The organise step *)

Lemma map_lookup {A B} (f : A -> B) (l : list A) (k : nat) :
  List.map f l !! k = f <$> (l !! k).
Proof.
  revert k. induction l as [|x l IH]; intros [|k]; simpl; auto.
Qed.

Lemma pair_up_lookup e jsons files k f :
  files !! k = Some f ->
  pair_up (build_info_map e jsons) files !! k = Some (f, paired_info e jsons f).
Proof. intros H. unfold pair_up. by rewrite map_lookup, H. Qed.

Lemma pair_up_length m files : length (pair_up m files) = length files.
Proof. apply length_map. Qed.

Lemma created_app (a b : list event) : created (a ++ b) = created a ++ created b.
Proof. induction a as [|[] a IHa]; simpl; rewrite ?IHa; auto. Qed.

Lemma organize_done pairs : forall i total dir an aa ao,
  exists t entries,
    organize pairs i total dir an aa ao = (t, Done entries)
    /\ List.map Log.track_number entries = seq i (length pairs)
    /\ (forall k f d, pairs !! k = Some (f, d) ->
          entries !! k = Some (entry_of (i + k) f d ao)
          /\ In (Move f (Path.div dir (Log.filename (entry_of (i + k) f d ao)))) t)
    /\ created t = [].
Proof.
  induction pairs as [|[f d] pairs IH]; intros i total dir an aa ao.
  - exists [], []. split; [reflexivity|]. split; [reflexivity|]. split; [|reflexivity].
    intros [|k] f d H; discriminate.
  - destruct (IH (S i) total dir an aa ao) as (t & entries & Hrun & Hnum & Hent & Hdirs).
    cbn [organize]. rewrite Hrun. unfold embed_metadata, emit, bind, ret.
    eexists _, _. split; [reflexivity|]. split; [|split].
    + simpl. by rewrite Hnum.
    + intros [|k] f' d' Hk; simpl in Hk.
      * inversion Hk; subst. rewrite Nat.add_0_r. split; [reflexivity|].
        simpl. right. by left.
      * destruct (Hent k f' d' Hk) as (He & Hm).
        rewrite Nat.add_succ_r. simpl in *. split; [done|].
        right. right. right. rewrite app_nil_r. done.
    + simpl. by rewrite app_nil_r.
Qed.

Lemma format_02d_two_digits :
  forall n, (n < 100)%nat ->
    format_02d n = [48 + N.of_nat (n / 10); 48 + N.of_nat (n mod 10)].
Proof.
  assert (H : forallb (fun n => Path.str_eqb (format_02d n)
                [48 + N.of_nat (n / 10); 48 + N.of_nat (n mod 10)]) (seq 0 100) = true)
    by (vm_compute; reflexivity).
  intros n Hn. rewrite forallb_forall in H.
  specialize (H n). rewrite in_seq in H. specialize (H ltac:(lia)).
  assert (Heq : forall a b : pystr, Path.str_eqb a b = true -> a = b).
  { induction a as [|x a IH]; intros [|y b] Hab; simpl in Hab; try discriminate.
    - reflexivity.
    - apply andb_true_iff in Hab as [Hx Hab]. apply N.eqb_eq in Hx.
      f_equal; auto. }
  by apply Heq.
Qed.

Lemma move_and_tag_done e result out ao aro :
  DownloadResult.downloaded_files result <> [] ->
  let files := DownloadResult.downloaded_files result in
  let jsons := DownloadResult.info_json_files result in
  exists t album_dir log,
    move_and_tag e result out ao aro = (t, Done album_dir)
    /\ In (WriteLog (Path.div album_dir (str "download_log.json")) log) t
    /\ Log.errors log = DownloadResult.errors result
    /\ List.map Log.track_number (Log.tracks log) = seq 1 (length files)
    /\ (forall k f, files !! k = Some f ->
          Log.tracks log !! k = Some (entry_of (S k) f (paired_info e jsons f) aro)
          /\ In (Move f (Path.div album_dir
                   (Log.filename (entry_of (S k) f (paired_info e jsons f) aro)))) t)
    /\ created t = [album_dir].
Proof.
  intros Hne. cbv zeta. unfold move_and_tag. cbv zeta.
  remember (DownloadResult.downloaded_files result) as files eqn:Ef.
  remember (DownloadResult.info_json_files result) as jsons eqn:Ej.
  remember (pair_up (build_info_map e jsons) files) as pairs eqn:Ep.
  assert (Hlen : length pairs = length files)
    by (subst pairs; apply pair_up_length).
  destruct pairs as [|p0 pairs'] eqn:Epairs.
  { destruct files; [done|discriminate]. }
  rewrite <- Epairs in *. clear Epairs p0 pairs'.
  match goal with
  | |- context [organize pairs 1 ?n ?dir ?an ?aa aro] =>
      destruct (organize_done pairs 1 n dir an aa aro)
        as (t & entries & Hrun & Hnum & Hent & Hdirs);
      set (album_dir := dir) in *
  end.
  unfold bind, emit, ret. rewrite Hrun.
  eexists _, album_dir, _. split; [reflexivity|].
  split; [|split; [|split; [|split]]].
  - simpl. right. apply in_or_app. right. by left.
  - reflexivity.
  - simpl. by rewrite Hnum, Hlen.
  - intros k f Hk. pose proof (pair_up_lookup e jsons files k f Hk) as Hp.
    rewrite <- Ep in Hp. destruct (Hent k f _ Hp) as (He & Hm).
    split; [exact He|]. simpl. right. apply in_or_app. by left.
  - simpl. rewrite created_app, Hdirs. reflexivity.
Qed.

(** C6. For a non-empty list of audio files, the organise step returns
    normally and writes a log whose tracks are numbered 1..N in the order of
    the files, whatever their names (and so whatever playlist indices
    survived the fetch); the track at position k carries number k+1, its
    file is moved to [NN - sanitize_filename(clean_title(title)).opus] in
    the album directory, with NN the number in decimal, zero-padded to two
    digits, and the title taken from the sidecar or else the file stem. *)
Theorem track_numbers_contiguous (e : env) (result : DownloadResult.t)
    (out : path) (ao aro : option pystr) :
  DownloadResult.downloaded_files result <> [] ->
  let files := DownloadResult.downloaded_files result in
  let jsons := DownloadResult.info_json_files result in
  exists t album_dir log,
    move_and_tag e result out ao aro = (t, Done album_dir)
    /\ In (WriteLog (Path.div album_dir (str "download_log.json")) log) t
    /\ List.map Log.track_number (Log.tracks log) = seq 1 (length files)
    /\ (forall k f, files !! k = Some f ->
          exists entry,
            Log.tracks log !! k = Some entry
            /\ Log.track_number entry = S k
            /\ Log.filename entry
               = format_02d (S k) ++ str " - "
                 ++ sanitize_filename
                      (clean_title (raw_title_of f (paired_info e jsons f)))
                 ++ str ".opus"
            /\ In (Move f (Path.div album_dir (Log.filename entry))) t)
    /\ (forall n, (n < 100)%nat ->
          format_02d n = [48 + N.of_nat (n / 10); 48 + N.of_nat (n mod 10)]).
Proof.
  intros Hne files jsons.
  destruct (move_and_tag_done e result out ao aro Hne)
    as (t & album_dir & log & Hrun & Hlog & _ & Hnum & Hent & _).
  exists t, album_dir, log. repeat (split; [done|]).
  split; [|apply format_02d_two_digits].
  intros k f Hk. destruct (Hent k f Hk) as (He & Hm).
  eexists. split; [exact He|]. repeat split. exact Hm.
Qed.

Lemma track_numbers_contiguous_witness :
  exists t album_dir log,
    move_and_tag Demo.world Demo.fetched (output_dir Demo.cli) None None
      = (t, Done album_dir)
    /\ In (WriteLog (Path.div album_dir (str "download_log.json")) log) t
    /\ List.map Log.track_number (Log.tracks log) = [1; 2; 3]%nat.
Proof.
  destruct (track_numbers_contiguous Demo.world Demo.fetched
              (output_dir Demo.cli) None None)
    as (t & album_dir & log & Hrun & Hlog & Hnum & _).
  - discriminate.
  - exists t, album_dir, log. split; [exact Hrun|]. split; [exact Hlog|exact Hnum].
Defined.

(** ** Missing sidecars *)

Lemma build_info_map_acc e jsons : forall (m m' : gmap pystr info) key (keep : path -> bool),
  m !! key = m' !! key ->
  (forall j, In j jsons -> keep j = false -> sidecar_key j <> key) ->
  fold_left (fun info_map info_path =>
               <[sidecar_key info_path := load_info_json e info_path]> info_map)
            jsons m !! key
  = fold_left (fun info_map info_path =>
               <[sidecar_key info_path := load_info_json e info_path]> info_map)
            (List.filter keep jsons) m' !! key.
Proof.
  induction jsons as [|j jsons IH]; intros m m' key keep Hm Hkeep; simpl; [done|].
  destruct (keep j) eqn:Hj; simpl.
  - apply IH; [|intros j0 Hin Hk0; apply Hkeep; [by right|done]].
    destruct (decide (sidecar_key j = key)) as [->|Hne].
    + by rewrite !lookup_insert_eq.
    + by rewrite !lookup_insert_ne.
  - apply IH; [|intros j0 Hin Hk0; apply Hkeep; [by right|done]].
    rewrite lookup_insert_ne; [done|]. apply Hkeep; [by left|done].
Qed.

Lemma build_info_map_absent e jsons key :
  (forall j, In j jsons -> sidecar_key j <> key) ->
  build_info_map e jsons !! key = None.
Proof.
  intros H. unfold build_info_map.
  rewrite (build_info_map_acc e jsons ∅ ∅ key (fun _ => false)); auto.
  assert (Hf : List.filter (fun _ : path => false) jsons = []).
  { clear. induction jsons; simpl; auto. }
  by rewrite Hf.
Qed.

(** C7. An audio file with no sidecar is paired with the empty record: its
    raw title is its file stem, its artist resolves to "Unknown Artist", the
    organise step still returns normally and logs the track with the
    cleaned stem as title; and whether that sidecar is there or not does not
    change the record any other file is paired with. *)
Theorem missing_sidecar_degrades (e : env) (result : DownloadResult.t)
    (out : path) (ao aro : option pystr) (k : nat) (f : path) :
  let files := DownloadResult.downloaded_files result in
  let jsons := DownloadResult.info_json_files result in
  files !! k = Some f ->
  (forall j, In j jsons -> sidecar_key j <> Path.stem f) ->
  pair_up (build_info_map e jsons) files !! k = Some (f, ∅)
  /\ raw_title_of f ∅ = Path.stem f
  /\ get_artist ∅ = str "Unknown Artist"
  /\ (forall jsons' g,
        List.filter (fun j => bool_decide (sidecar_key j <> Path.stem f)) jsons' = jsons ->
        Path.stem g <> Path.stem f ->
        paired_info e jsons' g = paired_info e jsons g)
  /\ (exists t album_dir log,
        move_and_tag e result out ao aro = (t, Done album_dir)
        /\ In (WriteLog (Path.div album_dir (str "download_log.json")) log) t
        /\ Log.tracks log !! k
           = Some (Log.mk_track (S k) [] (clean_title (Path.stem f))
                     (opt_or aro (str "Unknown Artist"))
                     (dest_name_of (S k) (clean_title (Path.stem f))) None)).
Proof.
  intros files jsons Hk Hmissing.
  assert (Hinfo : paired_info e jsons f = ∅).
  { unfold paired_info. by rewrite build_info_map_absent. }
  split; [|split; [|split; [|split]]].
  - rewrite (pair_up_lookup e jsons files k f Hk). by rewrite Hinfo.
  - reflexivity.
  - reflexivity.
  - intros jsons' g Hfilter Hg. unfold paired_info, build_info_map.
    rewrite <- Hfilter.
    rewrite (build_info_map_acc e jsons' ∅ ∅ (Path.stem g)
               (fun j => bool_decide (sidecar_key j <> Path.stem f))); [done|done|].
    intros j _ Hj Heq. apply bool_decide_eq_false in Hj.
    apply Hj. intros Hf. apply Hg. congruence.
  - assert (Hne : DownloadResult.downloaded_files result <> []).
    { fold files. intros H. by rewrite H in Hk. }
    destruct (move_and_tag_done e result out ao aro Hne)
      as (t & album_dir & log & Hrun & Hlog & _ & _ & Hent & _).
    exists t, album_dir, log. split; [done|]. split; [done|].
    destruct (Hent k f Hk) as (He & _). fold jsons in He.
    rewrite Hinfo in He. exact He.
Qed.

Lemma missing_sidecar_degrades_witness :
  pair_up (build_info_map Demo.world (DownloadResult.info_json_files Demo.fetched))
          (DownloadResult.downloaded_files Demo.fetched) !! 2%nat
  = Some (Demo.staging ++ [str "004 - Fourth.opus"], ∅)
  /\ exists t album_dir log,
       move_and_tag Demo.world Demo.fetched (output_dir Demo.cli) None None
         = (t, Done album_dir)
       /\ In (WriteLog (Path.div album_dir (str "download_log.json")) log) t
       /\ Log.tracks log !! 2%nat
          = Some (Log.mk_track 3 [] (str "004 - Fourth") (str "Unknown Artist")
                               (str "03 - 004 - Fourth.opus") None).
Proof.
  destruct (missing_sidecar_degrades Demo.world Demo.fetched (output_dir Demo.cli)
              None None 2 (Demo.staging ++ [str "004 - Fourth.opus"]))
    as (Hpair & _ & _ & _ & Hrun).
  - reflexivity.
  - intros j Hj. vm_compute in Hj. destruct Hj as [<-|[<-|[]]]; vm_compute; discriminate.
  - split; [exact Hpair|exact Hrun].
Defined.

(** ** No tracks *)

Lemma download_playlist_done e u t r :
  download_playlist e u None = (t, Done r) ->
  created t = [mkdtemp e] /\ DownloadResult.errors r = [].
Proof.
  unfold download_playlist, extract_playlist_info.
  destruct (normalize_playlist_url (host_check e) u) as [u1|]; [|discriminate].
  destruct (normalize_playlist_url (host_check e) u1) as [u2|]; [|discriminate].
  destruct (extract_info e u2) as [raw|]; [|discriminate].
  unfold bind, emit, ret, default. simpl.
  destruct (collect _) as [opus json]. intros H. inversion H; subst. by split.
Qed.

(** C8. When the fetch leaves no audio file, the run ends through
    [sys.exit(1)] and has created no directory but the staging one; the
    organise step itself, given no file (hence no pair), prints the
    diagnostic and exits with code 1 without creating anything. *)
Theorem no_tracks_is_fatal (e : env) (a : args) (t0 : list event)
    (result : DownloadResult.t) :
  dry_run_flag a = false ->
  download_playlist e (url a) None = (t0, Done result) ->
  DownloadResult.downloaded_files result = [] ->
  (exists t, main e a = (t, Exit 1)
             /\ Forall (fun d => d = mkdtemp e) (created t))
  /\ (forall out ao aro,
        pair_up (build_info_map e (DownloadResult.info_json_files result))
                (DownloadResult.downloaded_files result) = []
        /\ move_and_tag e result out ao aro
           = ([PrintErr (str "No tracks were downloaded.")], Exit 1)).
Proof.
  intros Hdry Hdl Hnone. split.
  - destruct (download_playlist_done _ _ _ _ Hdl) as (Hdirs & _).
    unfold main, check_dependencies. rewrite Hdry. simpl List.filter.
    destruct (which e (str "yt-dlp")), (which e (str "ffmpeg")); simpl negb; cbv iota.
    + unfold bind at 1. unfold ret at 1.
      unfold bind at 1. unfold emit at 1.
      rewrite Hdl. unfold bind at 1. rewrite Hnone.
      unfold bind, emit, sys_exit. simpl.
      eexists. split; [reflexivity|].
      cbn [created]. rewrite created_app, Hdirs. simpl. by repeat constructor.
    + eexists. split; [reflexivity|]. simpl. constructor.
    + eexists. split; [reflexivity|]. simpl. constructor.
    + eexists. split; [reflexivity|]. simpl. constructor.
  - intros out ao aro. unfold move_and_tag. rewrite Hnone. by split.
Qed.

Lemma no_tracks_is_fatal_witness :
  exists t, main Demo.barren Demo.cli = (t, Exit 1)
            /\ Forall (fun d => d = Demo.staging) (created t).
Proof.
  refine (proj1 (no_tracks_is_fatal Demo.barren Demo.cli
                   (fst (download_playlist Demo.barren (url Demo.cli) None))
                   (DownloadResult.mk
                      (PlaylistInfo.mk (str "Road Mix")
                         (str "https://www.youtube.com/playlist?list=PLroad") [] None)
                      [] [] [])
                   _ _ _)).
  - reflexivity.
  - vm_compute. reflexivity.
  - reflexivity.
Defined.

(** ** Fetch failures *)

(** C9 (the code does not do this). A fetch in which one entry fails and
    three audio files arrive: the run completes and writes the log, yet the
    [errors] of the log is empty, because [download_playlist] builds its
    result with the default empty [errors] and never adds to it. *)
Theorem fetch_failures_not_logged :
  failed (download Demo.world (str "https://www.youtube.com/playlist?list=PLroad")
                   Demo.staging)
  = [str "ERROR: [youtube] v3: Video unavailable"]
  /\ exists t file log,
       main Demo.world Demo.cli = (t, Done tt)
       /\ In (WriteLog file log) t
       /\ length (Log.tracks log) = 3%nat
       /\ Log.errors log = [].
Proof.
  split; [reflexivity|].
  destruct (main Demo.world Demo.cli) as [t o] eqn:Hmain.
  vm_compute in Hmain. inversion Hmain; subst t o; clear Hmain.
  eexists _, _, _. split; [reflexivity|]. split.
  - do 14 right. left. reflexivity.
  - split; reflexivity.
Qed.

(** ** URL normalisation *)

(** C10 (the code does not do this). A list value with a percent-encoded
    ampersand is decoded by [parse_qs] and pasted unescaped into the
    canonical URL; normalising that URL again cuts the value at the
    ampersand, so the second result differs from the first. *)
Theorem normalize_playlist_url_twice (host_check : pystr -> bool) :
  normalize_playlist_url host_check
    (str "https://www.youtube.com/watch?v=v1&list=PL%26x")
  = Some (str "https://www.youtube.com/playlist?list=PL&x")
  /\ normalize_playlist_url host_check
       (str "https://www.youtube.com/playlist?list=PL&x")
     = Some (str "https://www.youtube.com/playlist?list=PL").
Proof. split; vm_compute; reflexivity. Qed.

Example normalize_playlist_url_watch (host_check : pystr -> bool) :
  normalize_playlist_url host_check
    (str "https://www.youtube.com/watch?v=v1&list=PLroad")
  = Some (str "https://www.youtube.com/playlist?list=PLroad").
Proof. vm_compute. reflexivity. Qed.

Example normalize_playlist_url_no_list (host_check : pystr -> bool) :
  normalize_playlist_url host_check (str "https://youtu.be/v1?t=10")
  = Some (str "https://youtu.be/v1?t=10").
Proof. vm_compute. reflexivity. Qed.

(** * Further properties of the sources *)

(** ** [get_artist] and [determine_album_artist] *)

Lemma first_truthy_cases (d : info) (keys : list pystr) (dflt : pystr) :
  first_truthy d keys dflt = dflt
  \/ exists key, In key keys /\ d !! key = Some (first_truthy d keys dflt)
                 /\ first_truthy d keys dflt <> [].
Proof.
  induction keys as [|key keys IH]; simpl; [by left|].
  destruct (d !! key) as [val|] eqn:Hk.
  - destruct val as [|c val]; simpl.
    + destruct IH as [IH|(k & Hin & Hd & Hne)]; [by left|].
      right. exists k. auto.
    + right. exists key. repeat split; auto; discriminate.
  - destruct IH as [IH|(k & Hin & Hd & Hne)]; [by left|].
    right. exists k. auto.
Qed.

(** X1. [get_artist] never returns the empty string: its result is the
    value stored under one of the four keys, or the sentinel; and a non-empty
    [artist] value wins over the other keys. *)
Theorem get_artist_never_empty (d : info) :
  get_artist d <> []
  /\ (get_artist d = str "Unknown Artist"
      \/ exists key,
           In key [str "artist"; str "creator"; str "uploader"; str "channel"]
           /\ d !! key = Some (get_artist d))
  /\ (forall v, d !! str "artist" = Some v -> v <> [] -> get_artist d = v).
Proof.
  unfold get_artist. split; [|split].
  - destruct (first_truthy_cases d
      [str "artist"; str "creator"; str "uploader"; str "channel"]
      (str "Unknown Artist")) as [->|(k & _ & _ & Hne)]; [discriminate|done].
  - destruct (first_truthy_cases d
      [str "artist"; str "creator"; str "uploader"; str "channel"]
      (str "Unknown Artist")) as [H|(k & Hin & Hd & _)]; [by left|].
    right. by exists k.
  - intros v Hv Hne. cbn [first_truthy]. rewrite Hv.
    by destruct v.
Qed.

Lemma artist_set_ext (l1 l2 : list info) :
  (forall a, (exists d, In d l1 /\ get_artist d = a)
             <-> (exists d, In d l2 /\ get_artist d = a)) ->
  artist_set l1 = artist_set l2.
Proof.
  intros H. apply set_eq. intros a. rewrite !elem_of_artist_set. apply H.
Qed.

(** X2. The album artist depends only on which artists the tracks resolve
    to: two track lists with the same resolved artists, in any order and
    with any repetition, get the same album artist. *)
Theorem determine_album_artist_set_only (l1 l2 : list info) :
  (forall a, (exists d, In d l1 /\ get_artist d = a)
             <-> (exists d, In d l2 /\ get_artist d = a)) ->
  determine_album_artist l1 = determine_album_artist l2.
Proof.
  intros H. unfold determine_album_artist. cbv zeta.
  by rewrite (artist_set_ext l1 l2 H).
Qed.

Lemma determine_album_artist_set_only_witness :
  determine_album_artist [Demo.sidecar_1; Demo.sidecar_2; Demo.sidecar_1]
  = determine_album_artist [Demo.sidecar_2; Demo.sidecar_1].
Proof.
  apply (determine_album_artist_set_only
           [Demo.sidecar_1; Demo.sidecar_2; Demo.sidecar_1]
           [Demo.sidecar_2; Demo.sidecar_1]).
  intros a. split; intros (d & Hin & Hd); exists d; (split; [|done]);
    simpl in *; tauto.
Defined.

(** X3. When [determine_album_artist] answers anything but the sentinel,
    every track resolves to that very artist; and for no track at all it
    answers the sentinel. *)
Theorem determine_album_artist_unanimous (infos : list info) :
  (determine_album_artist infos <> str "Various Artists" ->
   forall d, In d infos -> get_artist d = determine_album_artist infos)
  /\ determine_album_artist [] = str "Various Artists".
Proof.
  split; [|reflexivity].
  unfold determine_album_artist. cbv zeta.
  destruct (decide (size (artist_set infos) = 1%nat)) as [H1|H1]; [|done].
  destruct (size_1_elem_of _ H1) as (a & Ha). apply leibniz_equiv in Ha.
  rewrite Ha, elements_singleton. intros _ d Hd.
  assert (Hin : get_artist d ∈ artist_set infos).
  { apply elem_of_artist_set. by exists d. }
  rewrite Ha in Hin. by apply elem_of_singleton in Hin.
Qed.

Lemma determine_album_artist_unanimous_witness :
  forall d, In d [Demo.sidecar_1; Demo.sidecar_1] ->
            get_artist d = determine_album_artist [Demo.sidecar_1; Demo.sidecar_1].
Proof.
  apply (proj1 (determine_album_artist_unanimous [Demo.sidecar_1; Demo.sidecar_1])).
  vm_compute. discriminate.
Defined.

(** ** [clean_title] and [sanitize_filename], further *)

Lemma erased_length P s o : erased P s o -> (length o <= length s)%nat.
Proof.
  induction 1; simpl; [lia|lia|]. rewrite length_app. lia.
Qed.

Lemma squeeze_length m s : (1 <= m)%nat -> (length (squeeze m s) <= length s)%nat.
Proof.
  intros Hm. remember (length s) as n eqn:Hn. revert s Hn.
  induction n as [n IH] using lt_wf_ind. intros [|c s] Hn.
  - rewrite squeeze_nil by done. simpl. lia.
  - rewrite squeeze_cons by done.
    destruct (m <=? span_len Space (c :: s))%nat eqn:Hhit.
    + apply Nat.leb_le in Hhit.
      assert (Hlt : (length (span_rest Space (c :: s)) < length (c :: s))%nat)
        by (apply span_rest_shorter; lia).
      pose proof (IH _ ltac:(subst n; exact Hlt) _ eq_refl) as Hle.
      cbn [length] in *. lia.
    + pose proof (IH (length s) ltac:(subst n; simpl; lia) s eq_refl).
      subst n. cbn [length]. lia.
Qed.

Lemma strip_length s : (length (strip s) <= length s)%nat.
Proof.
  unfold strip.
  destruct (lstrip_split s) as (u & Hs & _).
  destruct (rstrip_split (lstrip s)) as (v & Ht & _).
  rewrite Hs at 2. rewrite Ht at 2. rewrite !length_app. lia.
Qed.

(** X4. [clean_title] never returns a longer string than it is given; and
    whenever it returns something else than the raw title, the result has no
    leading and no trailing whitespace and no two adjacent whitespace
    characters. *)
Theorem clean_title_normal_form (t : pystr) :
  (length (clean_title t) <= length t)%nat
  /\ (clean_title t = t
      \/ ((forall c rest, clean_title t = c :: rest -> isspace c = false)
          /\ (forall u c, clean_title t = u ++ [c] -> isspace c = false)
          /\ (forall u a b v, clean_title t = u ++ a :: b :: v ->
                isspace a && isspace b = false))).
Proof.
  unfold clean_title, or_else. cbv zeta.
  change (collapse_spaces (strip_noise t)) with (squeeze 2 (strip_noise t)).
  set (y := strip (squeeze 2 (strip_noise t))).
  assert (Hlen : (length y <= length t)%nat).
  { unfold y. pose proof (strip_length (squeeze 2 (strip_noise t))).
    pose proof (squeeze_length 2 (strip_noise t) ltac:(lia)).
    pose proof (erased_length _ _ _ (strip_noise_erases t)). lia. }
  destruct (truthy y) eqn:Hy; [|split; [lia|by left]].
  split; [done|]. right. split; [|split].
  - intros c rest Hc. pose proof (head_space_strip (squeeze 2 (strip_noise t))) as H.
    fold y in H. by rewrite Hc in H.
  - intros u c. apply strip_last.
  - apply ws_run_free_pairs. apply ws_run_free_strip, ws_run_free_squeeze. lia.
Qed.

Lemma no_bracket_no_match (s : pystr) :
  (forall c, In c s -> c <> 40 /\ c <> 91) ->
  match_prefix true _TITLE_NOISE s = None.
Proof.
  intros H. destruct (match_prefix true _TITLE_NOISE s) as [rest|] eqn:Hm; [|done].
  destruct (match_prefix_sound _ _ _ _ Hm) as (w & Hs & Hw).
  apply title_noise_annotation in Hw.
  destruct Hw as (lead & o & pad1 & content & pad2 & c & phrase & Hseg & _ & _ & _ & Ho & _).
  assert (Hin : In o s).
  { rewrite Hs, Hseg. apply in_or_app. left. apply in_or_app. right. by left. }
  destruct (H o Hin) as (H40 & H91).
  simpl in Ho. destruct Ho as [Ho|[Ho|[]]]; congruence.
Qed.

Lemma strip_noise_no_bracket (t : pystr) :
  (forall c, In c t -> c <> 40 /\ c <> 91) -> strip_noise t = t.
Proof.
  induction t as [|c t IH]; intros H.
  - unfold strip_noise. apply sub_nil. vm_compute. reflexivity.
  - unfold strip_noise. rewrite sub_miss by (by apply no_bracket_no_match).
    f_equal. apply IH. intros x Hx. apply H. by right.
Qed.

(** X5. A title with no opening parenthesis and no opening bracket loses
    nothing but whitespace: the noise substitution leaves it as it is, so
    [clean_title] only squeezes and trims it. *)
Theorem clean_title_without_brackets (t : pystr) :
  (forall c, In c t -> c <> 40 /\ c <> 91) ->
  strip_noise t = t
  /\ clean_title t = or_else (strip (collapse_spaces t)) t.
Proof.
  intros H. pose proof (strip_noise_no_bracket t H) as Hs.
  split; [done|]. unfold clean_title. cbv zeta. by rewrite Hs.
Qed.

Lemma clean_title_without_brackets_witness :
  clean_title (str " Plain   Title ")
  = or_else (strip (collapse_spaces (str " Plain   Title "))) (str " Plain   Title ").
Proof.
  refine (proj2 (clean_title_without_brackets (str " Plain   Title ") _)).
  intros c Hc. vm_compute in Hc.
  repeat (destruct Hc as [<-|Hc]; [split; discriminate|]). destruct Hc.
Defined.

Lemma squeeze_one_plain s : plain_spaces (squeeze 1 s).
Proof.
  remember (length s) as n eqn:Hn. revert s Hn.
  induction n as [n IH] using lt_wf_ind. intros [|c s] Hn x Hx Hsp.
  - rewrite squeeze_nil in Hx by lia. destruct Hx.
  - rewrite squeeze_cons in Hx by lia.
    destruct (1 <=? span_len Space (c :: s))%nat eqn:Hhit.
    + apply Nat.leb_le in Hhit. destruct Hx as [<-|Hx]; [done|].
      eapply IH; [| |exact Hx|exact Hsp]; [|reflexivity].
      subst n. apply span_rest_shorter. lia.
    + apply Nat.leb_gt in Hhit. rewrite span_len_cons in Hhit. simpl in Hhit.
      destruct Hx as [<-|Hx].
      * destruct (isspace c); [lia|discriminate].
      * eapply IH; [| |exact Hx|exact Hsp]; [|reflexivity]. subst n. simpl. lia.
Qed.

Lemma span_rest_cons_miss c s :
  isspace c = true -> head_space s = false -> span_rest Space (c :: s) = s
  /\ span_len Space (c :: s) = 1%nat.
Proof.
  intros Hc Hs. unfold span_rest, span_len. simpl. rewrite Hc.
  destruct s as [|d s]; [done|]. simpl in *. by rewrite Hs.
Qed.

Lemma squeeze_one_fixed s :
  ws_run_free s = true -> plain_spaces s -> squeeze 1 s = s.
Proof.
  induction s as [|c s IH]; intros Hfree Hplain.
  - by rewrite squeeze_nil.
  - cbn [ws_run_free] in Hfree. apply andb_true_iff in Hfree as [Hc Hs].
    assert (IHs : squeeze 1 s = s).
    { apply IH; [done|]. intros x Hx. apply Hplain. by right. }
    rewrite squeeze_cons by lia.
    destruct (isspace c) eqn:Ec.
    + simpl in Hc. apply negb_true_iff in Hc.
      destruct (span_rest_cons_miss c s Ec Hc) as (-> & ->). simpl.
      rewrite IHs. f_equal. symmetry. apply Hplain; [by left|done].
    + rewrite span_len_cons. simpl. rewrite Ec. simpl. by rewrite IHs.
Qed.

Lemma rstrip_id s :
  (forall u c, s = u ++ [c] -> isspace c = false) -> rstrip s = s.
Proof.
  induction s as [|a s IH]; intros H; [done|]. simpl.
  destruct s as [|b s].
  - simpl. by rewrite (H [] a eq_refl).
  - rewrite IH.
    + reflexivity.
    + intros u c Hu. apply (H (a :: u) c). simpl. by rewrite Hu.
Qed.

Lemma strip_id s :
  head_space s = false ->
  (forall u c, s = u ++ [c] -> isspace c = false) -> strip s = s.
Proof.
  intros Hh Ht. unfold strip. rewrite (lstrip_fixed s Hh). by apply rstrip_id.
Qed.

Lemma filter_id {A} (f : A -> bool) (l : list A) :
  (forall x, In x l -> f x = true) -> List.filter f l = l.
Proof.
  induction l as [|x l IH]; intros H; simpl; [done|].
  rewrite (H x) by (by left). f_equal. apply IH. intros y Hy. apply H. by right.
Qed.

Lemma plain_spaces_incl (s t : pystr) :
  (forall c, In c s -> In c t) -> plain_spaces t -> plain_spaces s.
Proof. intros Hincl Ht c Hc. apply Ht. by apply Hincl. Qed.

(** The four facts on which the result of [sanitize_filename] can be fed
    back to it. *)
Lemma sanitize_filename_facts (x : pystr) :
  let y := sanitize_filename x in
  (forall c, In c y -> negb (in_class (OneOf illegal_chars) c) = true)
  /\ ws_run_free y = true
  /\ plain_spaces y
  /\ head_space y = false
  /\ (length y <= 200)%nat.
Proof.
  unfold sanitize_filename. rewrite delete_class.
  set (kept := List.filter _ x).
  change (sub false (Rep Space 1) (str " ") kept) with (squeeze 1 kept).
  set (t := strip (squeeze 1 kept)). cbv zeta.
  split; [|split; [|split; [|split]]].
  - intros c Hc. apply firstn_incl, strip_incl, squeeze_chars in Hc; [|lia].
    destruct Hc as [Hc| ->]; [|vm_compute; reflexivity].
    by apply filter_In in Hc as [_ Hc].
  - apply (ws_run_free_app_l _ (skipn 200 t)). rewrite firstn_skipn.
    apply ws_run_free_strip, ws_run_free_squeeze. lia.
  - apply (plain_spaces_incl _ (squeeze 1 kept)); [|apply squeeze_one_plain].
    intros c Hc. by apply firstn_incl, strip_incl in Hc.
  - destruct (head_space (firstn 200 t)) eqn:Hh; [|done].
    apply head_space_firstn in Hh. unfold t in Hh.
    by rewrite head_space_strip in Hh.
  - apply firstn_le_length.
Qed.

(** X6. Sanitising a sanitised name changes nothing, provided the name does
    not end with whitespace (which only a cut at 200 characters can
    cause). *)
Theorem sanitize_filename_idempotent (x : pystr) :
  (forall u c, sanitize_filename x = u ++ [c] -> isspace c = false) ->
  sanitize_filename (sanitize_filename x) = sanitize_filename x.
Proof.
  intros Hlast.
  destruct (sanitize_filename_facts x) as (Hlegal & Hfree & Hplain & Hhead & Hlen).
  cbv zeta in *. set (y := sanitize_filename x) in *.
  unfold sanitize_filename at 1. rewrite delete_class.
  rewrite (filter_id _ y Hlegal).
  change (sub false (Rep Space 1) (str " ") y) with (squeeze 1 y).
  rewrite (squeeze_one_fixed y Hfree Hplain).
  rewrite (strip_id y Hhead Hlast).
  by apply firstn_all2.
Qed.

Lemma sanitize_filename_idempotent_witness :
  sanitize_filename (sanitize_filename (str " AC/DC:  Back in Black? "))
  = sanitize_filename (str " AC/DC:  Back in Black? ").
Proof.
  apply (sanitize_filename_idempotent (str " AC/DC:  Back in Black? ")).
  intros u c Hu.
  assert (Hs : sanitize_filename (str " AC/DC:  Back in Black? ")
               = str "ACDC Back in Blac" ++ [107]) by (vm_compute; reflexivity).
  rewrite Hs in Hu. apply app_inj_tail in Hu as [_ <-]. reflexivity.
Defined.

Lemma span_all_space (s : pystr) :
  (forall c, In c s -> isspace c = true) ->
  span_rest Space s = [] /\ span_len Space s = length s.
Proof.
  induction s as [|c s IH]; intros H; [done|].
  unfold span_rest, span_len. simpl. rewrite (H c) by (by left).
  destruct IH as [IH1 IH2]; [intros x Hx; apply H; by right|].
  split; [exact IH1|]. f_equal. exact IH2.
Qed.

(** X7. A name made only of illegal characters and whitespace sanitises to
    the empty string, and joining the empty string to a path adds no
    component: such an album artist or album name drops out of the
    destination path. *)
Theorem sanitize_filename_all_illegal (s : pystr) (p : path) :
  (forall c, In c s -> In c illegal_chars \/ isspace c = true) ->
  sanitize_filename s = [] /\ Path.div p (sanitize_filename s) = p.
Proof.
  intros H.
  assert (Hs : sanitize_filename s = []); [|by rewrite Hs].
  unfold sanitize_filename. rewrite delete_class.
  set (kept := List.filter _ s).
  assert (Hkept : forall c, In c kept -> isspace c = true).
  { intros c Hc. apply filter_In in Hc as [Hin Hc].
    destruct (H c Hin) as [Hbad|Hsp]; [|done].
    apply in_class_OneOf in Hbad. rewrite Hbad in Hc. discriminate. }
  change (sub false (Rep Space 1) (str " ") kept) with (squeeze 1 kept).
  destruct kept as [|c kept]; [by rewrite squeeze_nil|].
  destruct (span_all_space (c :: kept) Hkept) as (Hrest & Hspan).
  rewrite squeeze_cons by lia. rewrite Hspan, Hrest.
  replace (1 <=? length (c :: kept))%nat with true by reflexivity.
  rewrite squeeze_nil by lia. reflexivity.
Qed.

Lemma sanitize_filename_all_illegal_witness :
  sanitize_filename (str " ?? / ") = []
  /\ Path.div [str "Music"] (sanitize_filename (str " ?? / ")) = [str "Music"].
Proof.
  apply (sanitize_filename_all_illegal (str " ?? / ") [str "Music"]).
  intros c Hc. vm_compute in Hc.
  repeat (destruct Hc as [<-|Hc];
          [first [right; reflexivity | left; vm_compute; tauto]|]).
  destruct Hc.
Defined.

(** ** File numbers *)

Lemma digits_value_uint (u : Decimal.uint) (acc : nat) :
  digits_value (uint_digits u) acc = Nat.of_uint_acc u acc.
Proof.
  revert acc. induction u; intros acc; simpl uint_digits; simpl Nat.of_uint_acc;
    [reflexivity|..]; cbn [digits_value]; rewrite IHu, Nat.tail_mul_spec;
    f_equal; vm_compute N.to_nat; lia.
Qed.

Lemma digits_value_zeros (k : nat) (s : pystr) :
  digits_value (repeat 48 k ++ s) 0 = digits_value s 0.
Proof. induction k as [|k IH]; simpl; auto. Qed.

Lemma uint_digits_all_digits (u : Decimal.uint) :
  Forall (fun c => is_digit c = true) (uint_digits u).
Proof. induction u; simpl; constructor; auto. Qed.

Lemma format_02d_all_digits (n : nat) :
  Forall (fun c => is_digit c = true) (format_02d n).
Proof.
  unfold format_02d, pad_left. apply Forall_app. split.
  - apply List.Forall_forall. intros c Hc. apply repeat_spec in Hc. by subst.
  - apply uint_digits_all_digits.
Qed.

Lemma format_02d_value (n : nat) : digits_value (format_02d n) 0 = n.
Proof.
  unfold format_02d, pad_left. rewrite digits_value_zeros.
  unfold decimal. rewrite digits_value_uint. apply DecimalNat.Unsigned.of_to.
Qed.

Lemma leading_digits_stop (ds rest : pystr) (c : N) :
  Forall (fun x => is_digit x = true) ds -> is_digit c = false ->
  leading_digits (ds ++ c :: rest) = ds.
Proof.
  intros Hds Hc. induction Hds as [|x ds Hx _ IH]; simpl.
  - by rewrite Hc.
  - by rewrite Hx, IH.
Qed.

Lemma leading_number_dest (n : nat) (rest : pystr) :
  leading_number (format_02d n ++ 32 :: rest) = n.
Proof.
  unfold leading_number.
  rewrite leading_digits_stop; [apply format_02d_value|apply format_02d_all_digits|done].
Qed.

(** X8. The number in front of a destination file name reads back as the
    track number, whatever the title is (even one that starts with
    digits). *)
Theorem dest_name_number_round_trip (i : nat) (title : pystr) :
  leading_number (dest_name_of i title) = i.
Proof.
  unfold dest_name_of.
  change (str " - " ++ sanitize_filename title ++ str ".opus")
    with (32 :: (45 :: 32 :: sanitize_filename title ++ str ".opus")).
  apply leading_number_dest.
Qed.

(** ** The trace of the organise step *)

Lemma organize_trace pairs : forall i total dir an aa ao,
  organize pairs i total dir an aa ao
  = (steps_from dir an aa ao total i pairs, Done (entries_from ao i pairs)).
Proof.
  induction pairs as [|[f d] pairs IH]; intros i total dir an aa ao; [reflexivity|].
  cbn [organize steps_from entries_from track_steps]. rewrite IH.
  unfold embed_metadata, bind, emit, ret. cbn [fst app].
  rewrite app_nil_r. reflexivity.
Qed.

Lemma pairs_of_nonempty e result :
  DownloadResult.downloaded_files result <> [] -> pairs_of e result <> [].
Proof.
  intros Hne H. apply (f_equal length) in H. unfold pairs_of in H.
  rewrite pair_up_length in H.
  destruct (DownloadResult.downloaded_files result); [done|discriminate].
Qed.

Lemma move_and_tag_trace e result out ao aro :
  DownloadResult.downloaded_files result <> [] ->
  move_and_tag e result out ao aro
  = (Mkdir (album_dir_of e result out ao aro)
       :: steps_from (album_dir_of e result out ao aro) (album_name_of result ao)
            (album_artist_of e result aro) aro (length (pairs_of e result)) 1
            (pairs_of e result)
       ++ [WriteLog (Path.div (album_dir_of e result out ao aro)
                              (str "download_log.json"))
                    (log_of e result ao aro)],
     Done (album_dir_of e result out ao aro)).
Proof.
  intros Hne. pose proof (pairs_of_nonempty e result Hne) as Hp.
  unfold move_and_tag. cbv zeta.
  unfold log_of, album_dir_of, album_artist_of, album_name_of.
  change (pair_up (build_info_map e (DownloadResult.info_json_files result))
                  (DownloadResult.downloaded_files result))
    with (pairs_of e result).
  destruct (pairs_of e result) as [|p0 ps] eqn:Ep; [done|].
  rewrite organize_trace. unfold bind, emit, ret. cbn [app].
  rewrite ?app_nil_r. reflexivity.
Qed.

Lemma moves_app a b : moves (a ++ b) = moves a ++ moves b.
Proof. induction a as [|[] a IH]; simpl; rewrite ?IH; auto. Qed.

Lemma moves_steps dir an aa ao total pairs : forall i,
  moves (steps_from dir an aa ao total i pairs)
  = List.map (fun fe => (fst fe, Path.div dir (Log.filename (snd fe))))
             (combine (List.map fst pairs) (entries_from ao i pairs)).
Proof.
  induction pairs as [|[f d] pairs IH]; intros i; [reflexivity|].
  cbn [steps_from track_steps]. rewrite moves_app, IH. reflexivity.
Qed.

Lemma created_steps dir an aa ao total pairs : forall i,
  created (steps_from dir an aa ao total i pairs) = [].
Proof.
  induction pairs as [|[f d] pairs IH]; intros i; [reflexivity|].
  cbn [steps_from track_steps]. rewrite created_app, IH. reflexivity.
Qed.

Lemma entries_from_length ao pairs : forall i,
  length (entries_from ao i pairs) = length pairs.
Proof. induction pairs as [|[f d] pairs IH]; intros i; simpl; auto. Qed.

Lemma entries_from_numbers ao pairs : forall i,
  List.map (fun en => leading_number (Log.filename en)) (entries_from ao i pairs)
  = seq i (length pairs).
Proof.
  induction pairs as [|[f d] pairs IH]; intros i; [reflexivity|].
  cbn [entries_from List.map length seq]. rewrite IH. f_equal.
  apply (leading_number_dest i
           (45 :: 32 :: sanitize_filename (clean_title (raw_title_of f d))
               ++ str ".opus")).
Qed.

Lemma format_02d_long (n : nat) : (2 <= length (format_02d n))%nat.
Proof.
  unfold format_02d, pad_left. rewrite length_app, repeat_length. lia.
Qed.

Lemma dest_name_long (i : nat) (title : pystr) :
  (2 <= length (dest_name_of i title))%nat.
Proof.
  unfold dest_name_of. rewrite length_app. pose proof (format_02d_long i). lia.
Qed.

Lemma div_long (p : path) (c : pystr) :
  (2 <= length c)%nat -> Path.div p c = p ++ [c].
Proof.
  intros Hc. destruct c as [|x [|y r]]; simpl in Hc; [lia|lia|].
  unfold Path.div.
  repeat match goal with
  | |- context [match ?v with _ => _ end] => destruct v
  end; reflexivity.
Qed.

Lemma name_snoc (p : path) (c : pystr) : Path.name (p ++ [c]) = c.
Proof. unfold Path.name. apply last_last. Qed.

Lemma entries_from_names dir ao pairs : forall i,
  List.map (fun en => leading_number (Path.name (Path.div dir (Log.filename en))))
           (entries_from ao i pairs)
  = seq i (length pairs).
Proof.
  intros i. rewrite <- (entries_from_numbers ao pairs i).
  generalize i. clear i.
  induction pairs as [|[f d] pairs IH]; intros i; [reflexivity|].
  cbn [entries_from List.map]. rewrite IH. f_equal.
  cbn [entry_of Log.filename].
  rewrite div_long by apply dest_name_long. by rewrite name_snoc.
Qed.

Lemma map_fst_combine {A B} (l : list A) (k : list B) :
  length l = length k -> List.map fst (combine l k) = l.
Proof.
  revert k. induction l as [|a l IH]; intros [|b k] H; simpl in *;
    try discriminate; [reflexivity|]. f_equal. apply IH. lia.
Qed.

Lemma map_snd_combine {A B} (l : list A) (k : list B) :
  length l = length k -> List.map snd (combine l k) = k.
Proof.
  revert k. induction l as [|a l IH]; intros [|b k] H; simpl in *;
    try discriminate; [reflexivity|]. f_equal. apply IH. lia.
Qed.

Lemma pairs_of_files e result :
  List.map fst (pairs_of e result) = DownloadResult.downloaded_files result.
Proof.
  unfold pairs_of, pair_up. rewrite List.map_map. simpl. apply List.map_id.
Qed.

Lemma moves_of_run e result out ao aro :
  DownloadResult.downloaded_files result <> [] ->
  moves (fst (move_and_tag e result out ao aro))
  = List.map (fun fe => (fst fe, Path.div (album_dir_of e result out ao aro)
                                          (Log.filename (snd fe))))
             (combine (List.map fst (pairs_of e result))
                      (entries_from aro 1 (pairs_of e result))).
Proof.
  intros Hne. rewrite move_and_tag_trace by done. cbn [fst moves].
  rewrite moves_app, moves_steps. cbn [moves]. by rewrite app_nil_r.
Qed.

(** X9. The organise step moves every audio file exactly once, in the order
    of the files, each to a name directly inside the album directory, and no
    two of them to the same destination. *)
Theorem every_file_moved_once (e : env) (result : DownloadResult.t)
    (out : path) (ao aro : option pystr) :
  DownloadResult.downloaded_files result <> [] ->
  let t := fst (move_and_tag e result out ao aro) in
  List.map fst (moves t) = DownloadResult.downloaded_files result
  /\ List.NoDup (List.map snd (moves t))
  /\ (forall dst, In dst (List.map snd (moves t)) ->
        exists nm, dst = album_dir_of e result out ao aro ++ [nm]).
Proof.
  intros Hne t. unfold t. rewrite (moves_of_run e result out ao aro Hne).
  set (dir := album_dir_of e result out ao aro).
  set (pairs := pairs_of e result).
  assert (Hlen : length (List.map fst pairs) = length (entries_from aro 1 pairs)).
  { by rewrite length_map, entries_from_length. }
  rewrite !List.map_map. cbn [fst snd].
  split; [|split].
  - change (fun x : path * Log.track => fst x) with (@fst path Log.track).
    rewrite (map_fst_combine _ _ Hlen). apply pairs_of_files.
  - apply (List.NoDup_map_inv (fun dst => leading_number (Path.name dst))).
    rewrite List.map_map.
    rewrite <- (List.map_map snd
                  (fun en => leading_number (Path.name (Path.div dir (Log.filename en))))).
    rewrite (map_snd_combine _ _ Hlen), entries_from_names.
    apply List.seq_NoDup.
  - intros dst Hdst. apply List.in_map_iff in Hdst as ([f en] & <- & Hin).
    apply in_combine_r in Hin. cbn [snd].
    assert (Hnm : exists i title, Log.filename en = dest_name_of i title).
    { clear -Hin. revert Hin. generalize 1%nat. unfold pairs.
      induction (pairs_of e result) as [|[f d] ps IH]; intros i Hin;
        [destruct Hin|].
      destruct Hin as [<-|Hin].
      - by eexists _, _.
      - by apply (IH (S i)). }
    destruct Hnm as (i & title & ->).
    exists (dest_name_of i title). apply div_long, dest_name_long.
Qed.

Lemma every_file_moved_once_witness :
  List.map fst (moves (fst (move_and_tag Demo.world Demo.fetched
                              (output_dir Demo.cli) None None)))
  = DownloadResult.downloaded_files Demo.fetched.
Proof.
  refine (proj1 (every_file_moved_once Demo.world Demo.fetched
                   (output_dir Demo.cli) None None _)).
  discriminate.
Defined.

Lemma steps_are_track_steps dir an aa ao total pairs : forall i,
  Forall is_track_step (steps_from dir an aa ao total i pairs).
Proof.
  induction pairs as [|[f d] pairs IH]; intros i; [constructor|].
  cbn [steps_from track_steps]. apply Forall_app. split; [|apply IH].
  unfold embed_metadata, emit. cbn [fst app]. by repeat constructor.
Qed.

Lemma steps_tag_then_move dir an aa ao total pairs : forall i k f d,
  pairs !! k = Some (f, d) ->
  exists before after tags,
    steps_from dir an aa ao total i pairs
    = before ++ Retag f tags
        :: Move f (Path.div dir (Log.filename (entry_of (i + k) f d ao)))
        :: Print (str "  " ++ Log.filename (entry_of (i + k) f d ao)) :: after
    /\ In (str "title", Log.title (entry_of (i + k) f d ao)) tags
    /\ In (str "artist", Log.artist (entry_of (i + k) f d ao)) tags
    /\ In (str "album", an) tags
    /\ In (str "albumartist", aa) tags
    /\ In (str "tracknumber", decimal (i + k)) tags
    /\ In (str "tracktotal", decimal total) tags.
Proof.
  induction pairs as [|[f0 d0] pairs IH]; intros i k f d Hk; [by destruct k|].
  destruct k as [|k]; simpl in Hk.
  - inversion Hk; subst f0 d0. rewrite Nat.add_0_r.
    cbn [steps_from track_steps]. unfold embed_metadata, emit. cbn [fst app].
    eexists [], _, _. split; [reflexivity|]. simpl. tauto.
  - destruct (IH (S i) k f d Hk) as (before & after & tags & Heq & Htags).
    rewrite Nat.add_succ_r. simpl Nat.add in *.
    cbn [steps_from]. rewrite Heq.
    eexists (_ ++ before), after, tags. split; [by rewrite <- app_assoc|done].
Qed.

Lemma entries_from_lookup ao pairs : forall i k f d,
  pairs !! k = Some (f, d) ->
  entries_from ao i pairs !! k = Some (entry_of (i + k) f d ao).
Proof.
  induction pairs as [|[f0 d0] pairs IH]; intros i k f d Hk; [by destruct k|].
  destruct k as [|k]; simpl in Hk.
  - inversion Hk; subst. by rewrite Nat.add_0_r.
  - rewrite Nat.add_succ_r. apply (IH (S i) k f d Hk).
Qed.

Lemma pairs_of_lookup e result k f :
  DownloadResult.downloaded_files result !! k = Some f ->
  pairs_of e result !! k
  = Some (f, paired_info e (DownloadResult.info_json_files result) f).
Proof. apply pair_up_lookup. Qed.

(** X10. The organise step first creates the album directory, then handles
    the files one after the other, and writes the log last; between the two
    it creates no directory and writes no log, and every file is tagged at
    its staging path right before it is moved. *)
Theorem organise_order (e : env) (result : DownloadResult.t)
    (out : path) (ao aro : option pystr) :
  DownloadResult.downloaded_files result <> [] ->
  exists mid log,
    fst (move_and_tag e result out ao aro)
    = Mkdir (album_dir_of e result out ao aro) :: mid
      ++ [WriteLog (Path.div (album_dir_of e result out ao aro)
                             (str "download_log.json")) log]
    /\ Forall is_track_step mid
    /\ (forall k f, DownloadResult.downloaded_files result !! k = Some f ->
          exists before after tags dst line,
            mid = before ++ Retag f tags :: Move f dst :: Print line :: after).
Proof.
  intros Hne. rewrite move_and_tag_trace by done. cbn [fst].
  eexists _, _. split; [reflexivity|]. split; [apply steps_are_track_steps|].
  intros k f Hk. apply (pairs_of_lookup e result) in Hk.
  destruct (steps_tag_then_move (album_dir_of e result out ao aro)
              (album_name_of result ao) (album_artist_of e result aro) aro
              (length (pairs_of e result)) (pairs_of e result) 1 k f _ Hk)
    as (before & after & tags & Heq & _).
  by eexists before, after, tags, _, _.
Qed.

Lemma organise_order_witness :
  exists mid log,
    fst (move_and_tag Demo.world Demo.fetched (output_dir Demo.cli) None None)
    = Mkdir (album_dir_of Demo.world Demo.fetched (output_dir Demo.cli) None None)
        :: mid
      ++ [WriteLog (Path.div (album_dir_of Demo.world Demo.fetched
                                (output_dir Demo.cli) None None)
                             (str "download_log.json")) log]
    /\ Forall is_track_step mid.
Proof.
  destruct (organise_order Demo.world Demo.fetched (output_dir Demo.cli) None None)
    as (mid & log & Heq & Hmid & _); [discriminate|].
  exists mid, log. exact (conj Heq Hmid).
Defined.

(** X11. The tags written to a file agree with the log: for the file at
    position k, the title, artist and track number written to it are those
    of the k-th log entry, the album and album artist are those of the log,
    and the track total is the number of files. *)
Theorem tags_agree_with_log (e : env) (result : DownloadResult.t)
    (out : path) (ao aro : option pystr) (k : nat) (f : path) :
  DownloadResult.downloaded_files result !! k = Some f ->
  exists tags entry logfile log,
    In (Retag f tags) (fst (move_and_tag e result out ao aro))
    /\ In (WriteLog logfile log) (fst (move_and_tag e result out ao aro))
    /\ Log.tracks log !! k = Some entry
    /\ In (str "title", Log.title entry) tags
    /\ In (str "artist", Log.artist entry) tags
    /\ In (str "tracknumber", decimal (Log.track_number entry)) tags
    /\ In (str "album", Log.album log) tags
    /\ In (str "albumartist", Log.album_artist log) tags
    /\ In (str "tracktotal",
           decimal (length (DownloadResult.downloaded_files result))) tags.
Proof.
  intros Hk.
  assert (Hne : DownloadResult.downloaded_files result <> []).
  { intros H. by rewrite H in Hk. }
  rewrite move_and_tag_trace by done. cbn [fst].
  pose proof (pairs_of_lookup e result k f Hk) as Hp.
  destruct (steps_tag_then_move (album_dir_of e result out ao aro)
              (album_name_of result ao) (album_artist_of e result aro) aro
              (length (pairs_of e result)) (pairs_of e result) 1 k f _ Hp)
    as (before & after & tags & Heq & Ht & Ha & Hal & Haa & Hn & Htot).
  exists tags, (entry_of (1 + k) f
                  (paired_info e (DownloadResult.info_json_files result) f) aro).
  eexists _, (log_of e result ao aro).
  split; [|split; [|split; [|split; [|split; [|split; [|split; [|split]]]]]]].
  - right. apply in_or_app. left. rewrite Heq. apply in_or_app. right. by left.
  - right. apply in_or_app. right. left. reflexivity.
  - cbn [log_of Log.tracks]. by apply entries_from_lookup.
  - exact Ht.
  - exact Ha.
  - exact Hn.
  - exact Hal.
  - exact Haa.
  - unfold pairs_of in Htot. by rewrite pair_up_length in Htot.
Qed.

Lemma tags_agree_with_log_witness :
  exists tags entry logfile log,
    In (Retag (Demo.staging ++ [str "002 - Second.opus"]) tags)
       (fst (move_and_tag Demo.world Demo.fetched (output_dir Demo.cli) None None))
    /\ In (WriteLog logfile log)
          (fst (move_and_tag Demo.world Demo.fetched (output_dir Demo.cli) None None))
    /\ Log.tracks log !! 1%nat = Some entry
    /\ In (str "title", Log.title entry) tags.
Proof.
  destruct (tags_agree_with_log Demo.world Demo.fetched (output_dir Demo.cli)
              None None 1 (Demo.staging ++ [str "002 - Second.opus"]))
    as (tags & entry & logfile & log & H1 & H2 & H3 & H4 & _); [reflexivity|].
  exists tags, entry, logfile, log. exact (conj H1 (conj H2 (conj H3 H4))).
Defined.

Lemma entries_from_override (a : pystr) pairs : forall i,
  a <> [] ->
  Forall (fun en => Log.artist en = a) (entries_from (Some a) i pairs).
Proof.
  intros i Ha. revert i.
  induction pairs as [|[f d] pairs IH]; intros i; [constructor|].
  cbn [entries_from]. constructor; [|apply IH].
  cbn [entry_of Log.artist opt_or]. unfold or_else. by destruct a.
Qed.

(** X12. A non-empty artist override decides every artist of the run: the
    album artist of the log and the artist of each of its tracks are the
    override, whatever the sidecars hold. *)
Theorem artist_override_wins (e : env) (result : DownloadResult.t)
    (out : path) (ao : option pystr) (a : pystr) :
  a <> [] ->
  DownloadResult.downloaded_files result <> [] ->
  exists t dir logfile log,
    move_and_tag e result out ao (Some a) = (t, Done dir)
    /\ In (WriteLog logfile log) t
    /\ Log.album_artist log = a
    /\ Forall (fun en => Log.artist en = a) (Log.tracks log)
    /\ dir = Path.div (Path.div out (sanitize_filename a))
                      (sanitize_filename (album_name_of result ao)).
Proof.
  intros Ha Hne. rewrite move_and_tag_trace by done.
  eexists _, _, _, (log_of e result ao (Some a)).
  split; [reflexivity|].
  assert (Haa : album_artist_of e result (Some a) = a).
  { unfold album_artist_of, resolve_album_artist. by destruct a. }
  split; [|split; [|split]].
  - right. apply in_or_app. right. left. reflexivity.
  - exact Haa.
  - cbn [log_of Log.tracks]. by apply entries_from_override.
  - unfold album_dir_of. by rewrite Haa.
Qed.

Lemma artist_override_wins_witness :
  exists t dir logfile log,
    move_and_tag Demo.world Demo.fetched (output_dir Demo.cli) None (Some (str "Z"))
      = (t, Done dir)
    /\ In (WriteLog logfile log) t
    /\ Log.album_artist log = str "Z"
    /\ Forall (fun en => Log.artist en = str "Z") (Log.tracks log).
Proof.
  destruct (artist_override_wins Demo.world Demo.fetched (output_dir Demo.cli)
              None (str "Z"))
    as (t & dir & logfile & log & H1 & H2 & H3 & H4 & _); [discriminate..|].
  exists t, dir, logfile, log. exact (conj H1 (conj H2 (conj H3 H4))).
Defined.

(** ** The staging directory, sorted and classified *)

Lemma str_eqb_eq (a b : pystr) : Path.str_eqb a b = true <-> a = b.
Proof.
  revert b. induction a as [|x a IH]; intros [|y b]; simpl; split; intros H;
    try discriminate; try reflexivity.
  - apply andb_true_iff in H as [Hx Hab]. apply N.eqb_eq in Hx.
    f_equal; [done|by apply IH].
  - inversion H; subst. rewrite N.eqb_refl. by apply IH.
Qed.

Lemma str_leb_refl (a : pystr) : Path.str_leb a a = true.
Proof.
  induction a as [|x a IH]; simpl; [done|].
  by rewrite N.eqb_refl, IH, orb_true_r.
Qed.

Lemma str_leb_total (a b : pystr) :
  Path.str_leb a b = false -> Path.str_leb b a = true.
Proof.
  revert b. induction a as [|x a IH]; intros [|y b]; simpl; try done.
  intros H. apply orb_false_iff in H as [Hlt H].
  apply N.ltb_ge in Hlt.
  destruct (N.eqb_spec x y) as [->|Hne].
  - simpl in H. rewrite N.eqb_refl, (IH b H). by rewrite orb_true_r.
  - assert (Hyx : (y <? x) = true) by (apply N.ltb_lt; lia).
    by rewrite Hyx.
Qed.

Lemma str_leb_trans (a b c : pystr) :
  Path.str_leb a b = true -> Path.str_leb b c = true -> Path.str_leb a c = true.
Proof.
  revert b c. induction a as [|x a IH]; intros [|y b] [|z c]; simpl; try done.
  intros Hab Hbc.
  apply orb_true_iff in Hab as [Hxy|Hab]; apply orb_true_iff in Hbc as [Hyz|Hbc].
  - apply N.ltb_lt in Hxy, Hyz.
    assert (H : (x <? z) = true) by (apply N.ltb_lt; lia). by rewrite H.
  - apply andb_true_iff in Hbc as [Hyz _]. apply N.eqb_eq in Hyz. subst z.
    by rewrite Hxy.
  - apply andb_true_iff in Hab as [Hxy _]. apply N.eqb_eq in Hxy. subst y.
    by rewrite Hyz.
  - apply andb_true_iff in Hab as [Hxy Hab]. apply andb_true_iff in Hbc as [Hyz Hbc].
    apply N.eqb_eq in Hxy, Hyz. subst y z.
    by rewrite N.eqb_refl, (IH b c Hab Hbc), orb_true_r.
Qed.

Lemma str_leb_antisym (a b : pystr) :
  Path.str_leb a b = true -> Path.str_leb b a = true -> a = b.
Proof.
  revert b. induction a as [|x a IH]; intros [|y b]; simpl; try done.
  intros Hab Hba.
  apply orb_true_iff in Hab as [Hxy|Hab]; apply orb_true_iff in Hba as [Hyx|Hba].
  - apply N.ltb_lt in Hxy, Hyx. lia.
  - apply andb_true_iff in Hba as [Hyx _]. apply N.eqb_eq in Hyx.
    apply N.ltb_lt in Hxy. lia.
  - apply andb_true_iff in Hab as [Hxy _]. apply N.eqb_eq in Hxy.
    apply N.ltb_lt in Hyx. lia.
  - apply andb_true_iff in Hab as [Hxy Hab]. apply andb_true_iff in Hba as [_ Hba].
    apply N.eqb_eq in Hxy. subst y. f_equal. by apply IH.
Qed.

Lemma leb_total (p q : path) : Path.leb p q = false -> Path.leb q p = true.
Proof.
  revert q. induction p as [|a p IH]; intros [|b q]; simpl; try done.
  destruct (Path.str_eqb a b) eqn:Hab.
  - apply str_eqb_eq in Hab. subst b.
    rewrite (proj2 (str_eqb_eq a a) eq_refl). apply IH.
  - intros H. destruct (Path.str_eqb b a) eqn:Hba.
    + apply str_eqb_eq in Hba. subst b. by rewrite str_leb_refl in H.
    + by apply str_leb_total.
Qed.

Lemma leb_trans (p q r : path) :
  Path.leb p q = true -> Path.leb q r = true -> Path.leb p r = true.
Proof.
  revert q r. induction p as [|a p IH]; intros [|b q] [|c r]; simpl; try done.
  destruct (Path.str_eqb a b) eqn:Hab.
  { apply str_eqb_eq in Hab. subst b. destruct (Path.str_eqb a c); [apply IH|].
    by intros _ H. }
  destruct (Path.str_eqb b c) eqn:Hbc.
  { apply str_eqb_eq in Hbc. subst c. rewrite Hab. by intros H _. }
  intros H1 H2. destruct (Path.str_eqb a c) eqn:Hac.
  - apply str_eqb_eq in Hac. subst c.
    rewrite (str_leb_antisym a b H1 H2) in Hab.
    by rewrite (proj2 (str_eqb_eq b b) eq_refl) in Hab.
  - by apply (str_leb_trans a b c).
Qed.

Lemma in_insert_sorted (p x : path) (l : list path) :
  In x (Path.insert_sorted p l) <-> x = p \/ In x l.
Proof.
  induction l as [|q l IH]; simpl; [intuition|].
  destruct (Path.leb p q); simpl; [intuition|].
  rewrite IH. intuition.
Qed.

Lemma ascending_insert (p : path) (l : list path) :
  ascending l -> ascending (Path.insert_sorted p l).
Proof.
  induction l as [|q l IH]; intros Hl; simpl.
  - split; [constructor|done].
  - destruct Hl as [Hq Hl]. destruct (Path.leb p q) eqn:Hpq.
    + split; [|by split]. constructor; [done|].
      apply List.Forall_forall. intros x Hx.
      rewrite List.Forall_forall in Hq. by apply (leb_trans p q x), Hq.
    + split; [|by apply IH].
      apply List.Forall_forall. intros x Hx. apply in_insert_sorted in Hx as [->|Hx].
      * by apply leb_total.
      * rewrite List.Forall_forall in Hq. by apply Hq.
Qed.

Lemma ascending_sorted (l : list path) : ascending (Path.sorted l).
Proof.
  induction l as [|p l IH]; [done|]. by apply ascending_insert.
Qed.

Lemma in_sorted (x : path) (l : list path) : In x (Path.sorted l) <-> In x l.
Proof.
  induction l as [|p l IH]; [done|]. simpl. rewrite in_insert_sorted, IH.
  intuition.
Qed.

Lemma collect_opus (l : list path) :
  fst (collect l)
  = List.filter (fun p => Path.str_eqb (Path.suffix p) (str ".opus")) l.
Proof.
  induction l as [|p l IH]; [done|]. cbn [collect List.filter].
  destruct (collect l) as [opus json]. cbn [fst] in IH. subst opus.
  destruct (Path.str_eqb (Path.suffix p) (str ".opus")); [done|].
  by destruct (_ && _).
Qed.

Lemma collect_json (l : list path) :
  snd (collect l)
  = List.filter (fun p => negb (Path.str_eqb (Path.suffix p) (str ".opus"))
                          && (Path.str_eqb (Path.suffix p) (str ".json")
                              && endswith (Path.stem p) (str ".info"))) l.
Proof.
  induction l as [|p l IH]; [done|]. cbn [collect List.filter].
  destruct (collect l) as [opus json]. cbn [snd] in IH. subst json.
  destruct (Path.str_eqb (Path.suffix p) (str ".opus")); [done|].
  by destruct (_ && _).
Qed.

Lemma ascending_filter (f : path -> bool) (l : list path) :
  ascending l -> ascending (List.filter f l).
Proof.
  induction l as [|p l IH]; [done|]. intros [Hp Hl]. simpl.
  destruct (f p); [|by apply IH]. split; [|by apply IH].
  apply List.Forall_forall. intros x Hx. apply List.filter_In in Hx as [Hx _].
  rewrite List.Forall_forall in Hp. by apply Hp.
Qed.

Lemma download_playlist_result e u temp_dir t r :
  download_playlist e u temp_dir = (t, Done r) ->
  exists u',
    normalize_playlist_url (host_check e) u = Some u'
    /\ collect (Path.sorted (staged (download e u' (default (mkdtemp e) temp_dir))))
       = (DownloadResult.downloaded_files r, DownloadResult.info_json_files r).
Proof.
  unfold download_playlist, extract_playlist_info.
  destruct (normalize_playlist_url (host_check e) u) as [u1|]; [|discriminate].
  destruct (normalize_playlist_url (host_check e) u1) as [u2|]; [|discriminate].
  destruct (extract_info e u2) as [raw|]; [|discriminate].
  unfold bind, emit, ret. simpl.
  destruct (collect _) as [opus json] eqn:Hc. intros H. inversion H; subst.
  exists u1. split; [done|]. exact Hc.
Qed.

(** X13. When the download returns, the audio files of its result are
    exactly the entries of the staging directory whose suffix is [.opus],
    the sidecars exactly those whose suffix is [.json] and whose stem ends
    in [.info], and both lists are in ascending order of path (every
    earlier path is at most every later one), whatever order the directory
    was listed in. *)
Theorem downloaded_files_sorted (e : env) (u : pystr) (temp_dir : option path)
    (t : list event) (r : DownloadResult.t) :
  download_playlist e u temp_dir = (t, Done r) ->
  exists u',
    normalize_playlist_url (host_check e) u = Some u'
    /\ ascending (DownloadResult.downloaded_files r)
    /\ ascending (DownloadResult.info_json_files r)
    /\ (forall p, In p (DownloadResult.downloaded_files r)
          <-> In p (staged (download e u' (default (mkdtemp e) temp_dir)))
              /\ Path.suffix p = str ".opus")
    /\ (forall p, In p (DownloadResult.info_json_files r)
          <-> In p (staged (download e u' (default (mkdtemp e) temp_dir)))
              /\ Path.suffix p = str ".json"
              /\ endswith (Path.stem p) (str ".info") = true).
Proof.
  intros Hrun. destruct (download_playlist_result e u temp_dir t r Hrun)
    as (u' & Hu & Hc).
  exists u'. split; [done|].
  pose proof (collect_opus (Path.sorted (staged (download e u' (default (mkdtemp e) temp_dir))))) as Ho.
  pose proof (collect_json (Path.sorted (staged (download e u' (default (mkdtemp e) temp_dir))))) as Hj.
  rewrite Hc in Ho, Hj. cbn [fst snd] in Ho, Hj. rewrite Ho, Hj.
  split; [apply ascending_filter, ascending_sorted|].
  split; [apply ascending_filter, ascending_sorted|].
  split; intros p; rewrite List.filter_In, in_sorted.
  - by rewrite str_eqb_eq.
  - split.
    + intros (Hin & H). apply andb_true_iff in H as [_ H].
      apply andb_true_iff in H as [Hs Hi]. by apply str_eqb_eq in Hs.
    + intros (Hin & Hs & Hi). split; [done|]. rewrite Hs, Hi. done.
Qed.

Lemma downloaded_files_sorted_witness :
  ascending (DownloadResult.downloaded_files Demo.fetched).
Proof.
  destruct (downloaded_files_sorted Demo.world (url Demo.cli) None
              (fst (download_playlist Demo.world (url Demo.cli) None))
              Demo.fetched)
    as (u' & _ & H & _).
  - vm_compute. reflexivity.
  - exact H.
Defined.

(** ** Audio files and their sidecars *)

Lemma startswith_app (s pre : pystr) :
  startswith s pre = true <-> exists rest, s = pre ++ rest.
Proof.
  revert s. induction pre as [|p pre IH]; intros s.
  - split; [by exists s|by destruct s].
  - destruct s as [|c s]; simpl.
    + split; [done|]. by intros (rest & H).
    + rewrite andb_true_iff, N.eqb_eq, IH. split.
      * intros (-> & rest & ->). by exists rest.
      * intros (rest & H). inversion H; subst. split; [done|by exists rest].
Qed.

Lemma endswith_app (s suf : pystr) :
  endswith s suf = true <-> exists front, s = front ++ suf.
Proof.
  unfold endswith. rewrite startswith_app. split.
  - intros (rest & H). exists (rev rest).
    apply (f_equal (@rev N)) in H. by rewrite rev_involutive, rev_app_distr,
      rev_involutive in H.
  - intros (front & ->). exists (rev front). by rewrite rev_app_distr.
Qed.

Lemma removesuffix_app (front suf : pystr) :
  removesuffix (front ++ suf) suf = front.
Proof.
  unfold removesuffix. destruct suf as [|c suf]; [by rewrite app_nil_r|].
  cbn [truthy andb].
  rewrite (proj2 (endswith_app (front ++ c :: suf) (c :: suf)))
    by (by exists front).
  rewrite length_app, Nat.add_sub. by rewrite firstn_app, Nat.sub_diag, firstn_all,
    app_nil_r.
Qed.

Lemma rfind_dot_app (a b : pystr) : forall i found,
  Path.rfind_dot (a ++ b) i found
  = Path.rfind_dot b (i + length a) (Path.rfind_dot a i found).
Proof.
  induction a as [|c a IH]; intros i found; simpl.
  - by rewrite Nat.add_0_r.
  - rewrite IH. f_equal. lia.
Qed.

Lemma rfind_dot_none (ext : pystr) : forall i found,
  forallb (fun c => negb (c =? 46)) ext = true ->
  Path.rfind_dot ext i found = found.
Proof.
  induction ext as [|c ext IH]; intros i found H; [done|].
  simpl in H. apply andb_true_iff in H as [Hc H]. simpl.
  rewrite (IH _ _ H). by destruct (c =? 46).
Qed.

(** A name [front.ext], with [front] and [ext] not empty and no dot in
    [ext], splits into the stem [front] and the suffix [.ext]. *)
Lemma stem_suffix (dir : path) (front ext : pystr) :
  front <> [] -> ext <> [] ->
  forallb (fun c => negb (c =? 46)) ext = true ->
  Path.stem (dir ++ [front ++ 46 :: ext]) = front
  /\ Path.suffix (dir ++ [front ++ 46 :: ext]) = 46 :: ext.
Proof.
  intros Hf He Hdot. unfold Path.stem, Path.suffix, Path.suffix_start.
  rewrite name_snoc, rfind_dot_app. cbn [Path.rfind_dot].
  rewrite N.eqb_refl, rfind_dot_none by done.
  assert (H : (0 <? 0 + length front)%nat
               && (0 + length front <? length (front ++ 46%N :: ext) - 1)%nat = true).
  { rewrite length_app. cbn [length].
    destruct front; [done|]. destruct ext; [done|].
    apply andb_true_iff. split; apply Nat.ltb_lt; simpl; lia. }
  rewrite H, Nat.add_0_l.
  rewrite firstn_app, Nat.sub_diag, firstn_all, skipn_app, Nat.sub_diag, skipn_all.
  simpl. by rewrite app_nil_r.
Qed.

Lemma stem_opus (dir : path) (base : pystr) :
  base <> [] ->
  Path.stem (dir ++ [base ++ str ".opus"]) = base
  /\ Path.suffix (dir ++ [base ++ str ".opus"]) = str ".opus".
Proof. intros Hb. by apply (stem_suffix dir base (str "opus")). Qed.

Lemma stem_info_json (dir : path) (base : pystr) :
  Path.stem (dir ++ [base ++ str ".info.json"]) = base ++ str ".info"
  /\ Path.suffix (dir ++ [base ++ str ".info.json"]) = str ".json".
Proof.
  change (str ".info.json") with (str ".info" ++ 46 :: str "json").
  rewrite app_assoc. apply (stem_suffix dir (base ++ str ".info") (str "json")); [|done..].
  by destruct base.
Qed.

(** A collected sidecar is named by its key followed by [.info.json]. *)
Lemma sidecar_name (p : path) :
  Path.suffix p = str ".json" ->
  endswith (Path.stem p) (str ".info") = true ->
  Path.name p = sidecar_key p ++ str ".info.json".
Proof.
  unfold Path.suffix, Path.stem, sidecar_key.
  destruct (Path.suffix_start (Path.name p)) as [i|]; [|discriminate].
  intros Hs Hi. apply endswith_app in Hi as (front & Hi).
  assert (Hn : Path.name p = front ++ str ".info.json").
  { rewrite <- (firstn_skipn i (Path.name p)), Hs, Hi.
    by rewrite <- app_assoc. }
  by rewrite Hn, removesuffix_app.
Qed.

Lemma build_info_map_found e jsons key d : forall m : gmap pystr info,
  (forall j, In j jsons -> sidecar_key j = key -> load_info_json e j = d) ->
  (exists j, In j jsons /\ sidecar_key j = key) \/ m !! key = Some d ->
  fold_left (fun info_map info_path =>
               <[sidecar_key info_path := load_info_json e info_path]> info_map)
            jsons m !! key = Some d.
Proof.
  induction jsons as [|j jsons IH]; intros m Hsame Hin; simpl.
  - destruct Hin as [(j & [] & _)|H]; done.
  - apply IH; [intros j' Hj'; apply Hsame; by right|].
    destruct (decide (sidecar_key j = key)) as [Hk|Hk].
    + right. rewrite <- Hk, lookup_insert_eq. f_equal. apply Hsame; [by left|done].
    + destruct Hin as [(j' & [<-|Hj'] & Hk')|Hm]; [done| |].
      * left. by exists j'.
      * right. by rewrite lookup_insert_ne.
Qed.

(** X14. When the staging directory holds [base.opus] and
    [base.info.json] for a non-empty [base], the audio file is collected,
    the sidecar is collected, and the record the organise step pairs with
    the audio file is the content of that sidecar, whatever else the
    directory holds. *)
Theorem sidecar_pairing (e : env) (dir : path) (names : list pystr)
    (base : pystr) (opus json : list path) :
  base <> [] ->
  In (base ++ str ".opus") names ->
  In (base ++ str ".info.json") names ->
  collect (Path.sorted (List.map (fun nm => dir ++ [nm]) names)) = (opus, json) ->
  In (dir ++ [base ++ str ".opus"]) opus
  /\ In (dir ++ [base ++ str ".info.json"]) json
  /\ paired_info e json (dir ++ [base ++ str ".opus"])
     = load_info_json e (dir ++ [base ++ str ".info.json"]).
Proof.
  intros Hb Ho Hj Hc.
  pose proof (collect_opus (Path.sorted (List.map (fun nm => dir ++ [nm]) names))) as Eo.
  pose proof (collect_json (Path.sorted (List.map (fun nm => dir ++ [nm]) names))) as Ej.
  rewrite Hc in Eo, Ej. cbn [fst snd] in Eo, Ej.
  destruct (stem_opus dir base Hb) as (Hstem & Hsuf).
  destruct (stem_info_json dir base) as (Hstem' & Hsuf').
  assert (Hjson : In (dir ++ [base ++ str ".info.json"]) json).
  { rewrite Ej. apply List.filter_In. split.
    - apply in_sorted, List.in_map_iff. by eexists.
    - rewrite Hsuf', Hstem'.
      rewrite (proj2 (endswith_app (base ++ str ".info") (str ".info")))
        by (by exists base).
      reflexivity. }
  split; [|split; [done|]].
  - rewrite Eo. apply List.filter_In. split.
    + apply in_sorted, List.in_map_iff. by eexists.
    + by rewrite Hsuf.
  - unfold paired_info, build_info_map. rewrite Hstem.
    erewrite build_info_map_found; [reflexivity| |left].
    + intros j Hin Hkey. f_equal. rewrite Ej in Hin.
      apply List.filter_In in Hin as (Hin & Hf).
      apply andb_true_iff in Hf as (_ & Hf). apply andb_true_iff in Hf as (Hs & Hi).
      apply str_eqb_eq in Hs. pose proof (sidecar_name j Hs Hi) as Hn.
      apply in_sorted, List.in_map_iff in Hin as (nm & <- & _).
      rewrite name_snoc in Hn. by rewrite Hn, Hkey.
    + exists (dir ++ [base ++ str ".info.json"]). split; [done|].
      unfold sidecar_key. by rewrite name_snoc, removesuffix_app.
Qed.

Lemma sidecar_pairing_witness :
  paired_info Demo.world (DownloadResult.info_json_files Demo.fetched)
              (Demo.staging ++ [str "002 - Second.opus"])
  = Demo.sidecar_2.
Proof.
  refine (proj2 (proj2 (sidecar_pairing Demo.world Demo.staging
            [str "004 - Fourth.opus"; str "002 - Second.info.json";
             str "001 - First (Official Video).webp"; str "002 - Second.opus";
             str "001 - First (Official Video).opus";
             str "001 - First (Official Video).info.json"]
            (str "002 - Second")
            (DownloadResult.downloaded_files Demo.fetched)
            (DownloadResult.info_json_files Demo.fetched) _ _ _ _))).
  - discriminate.
  - simpl. tauto.
  - simpl. tauto.
  - vm_compute. reflexivity.
Defined.

(** ** The monad *)

Lemma bind_pair {A B} (t : list event) (x : A) (f : A -> M B) :
  bind (t, Done x) f = (t ++ fst (f x), snd (f x)).
Proof. unfold bind. by destruct (f x). Qed.

Lemma bind_trace {A B} (P : event -> Prop) (m : M A) (f : A -> M B) :
  Forall P (fst m) ->
  (forall x, Forall P (fst (f x))) ->
  Forall P (fst (bind m f)).
Proof.
  destruct m as [t [x|code|exc]]; intros Hm Hf; [|done..].
  rewrite bind_pair. apply Forall_app. split; [done|by apply Hf].
Qed.

Lemma bind_no_exit {A B} (m : M A) (f : A -> M B) :
  (forall code, snd m <> Exit code) ->
  (forall x code, snd (f x) <> Exit code) ->
  forall code, snd (bind m f) <> Exit code.
Proof.
  destruct m as [t [x|code|exc]]; intros Hm Hf c; [|by destruct (Hm code)|done].
  rewrite bind_pair. apply Hf.
Qed.

Lemma commands_app (a b : list event) : commands (a ++ b) = commands a ++ commands b.
Proof. induction a as [|[] a IH]; simpl; rewrite ?IH; auto. Qed.

Lemma commands_none (t : list event) :
  Forall (fun ev => forall cmd, ev <> Run cmd) t -> commands t = [].
Proof.
  induction 1 as [|ev t Hev _ IH]; [done|].
  destruct ev; simpl; try done. by destruct (Hev cmd).
Qed.

(** ** The parts of [main] *)

Lemma check_dependencies_cases e :
  (which e (str "yt-dlp") = true /\ which e (str "ffmpeg") = true
   /\ check_dependencies e = ([], Done tt))
  \/ ((which e (str "yt-dlp") = false \/ which e (str "ffmpeg") = false)
      /\ exists names,
           check_dependencies e
           = ([PrintErr (str "Error: missing required tools: " ++ names);
               PrintErr (str "Install with: sudo apt install -y yt-dlp ffmpeg")],
              Exit 1)
           /\ In names [str "yt-dlp"; str "ffmpeg"; str "yt-dlp, ffmpeg"]).
Proof.
  unfold check_dependencies. simpl List.filter.
  destruct (which e (str "yt-dlp")), (which e (str "ffmpeg")); simpl negb; cbv iota.
  - left. by repeat split.
  - right. split; [by right|]. eexists. split; [reflexivity|]. simpl. tauto.
  - right. split; [by left|]. eexists. split; [reflexivity|]. simpl. tauto.
  - right. split; [by left|]. eexists. split; [reflexivity|]. simpl. tauto.
Qed.

Lemma extract_playlist_info_silent e u : fst (extract_playlist_info e u) = [].
Proof.
  unfold extract_playlist_info.
  destruct (normalize_playlist_url (host_check e) u) as [u1|]; [|done].
  by destruct (extract_info e u1).
Qed.

Lemma dry_run_lines_output entries : forall i,
  Forall is_output (fst (dry_run_lines entries i))
  /\ snd (dry_run_lines entries i) = Done tt.
Proof.
  induction entries as [|en entries IH]; intros i; [by split|].
  cbn [dry_run_lines]. destruct (IH (S i)) as (Ht & Ho).
  destruct (dry_run_lines entries (S i)) as [t o]. cbn [fst snd] in Ht, Ho. subst o.
  unfold emit. rewrite bind_pair. cbn [fst snd app]. split; [|done]. by constructor.
Qed.

Lemma dry_run_output e u :
  Forall is_output (fst (dry_run e u))
  /\ forall code, snd (dry_run e u) <> Exit code.
Proof.
  unfold dry_run. split.
  - apply bind_trace; [rewrite extract_playlist_info_silent; constructor|].
    intros pl. repeat (apply bind_trace; [by repeat constructor|intros ?]).
    apply bind_trace.
    { destruct (PlaylistInfo.uploader pl) as [up|]; [|constructor].
      destruct (truthy up); by repeat constructor. }
    intros ?. apply bind_trace; [by repeat constructor|intros ?].
    apply bind_trace; [apply dry_run_lines_output|intros ?].
    by repeat constructor.
  - apply bind_no_exit.
    { intros code. unfold extract_playlist_info.
      destruct (normalize_playlist_url (host_check e) u) as [u1|]; [|done].
      by destruct (extract_info e u1). }
    intros pl. repeat (apply bind_no_exit; [done|intros ?]).
    apply bind_no_exit.
    { destruct (PlaylistInfo.uploader pl) as [up|]; [|done].
      by destruct (truthy up). }
    intros ?. apply bind_no_exit; [done|intros ?].
    apply bind_no_exit; [|done].
    intros code. by rewrite (proj2 (dry_run_lines_output _ _)).
Qed.

Lemma download_playlist_trace e u temp_dir :
  Forall (fun ev => exists dir, ev = Mkdir dir) (fst (download_playlist e u temp_dir))
  /\ forall code, snd (download_playlist e u temp_dir) <> Exit code.
Proof.
  unfold download_playlist, extract_playlist_info.
  destruct (normalize_playlist_url (host_check e) u) as [u1|]; [|by split].
  destruct (normalize_playlist_url (host_check e) u1) as [u2|]; [|by split].
  destruct (extract_info e u2) as [raw|]; [|by split].
  unfold bind, emit, ret. simpl. destruct (collect _) as [opus json]. simpl.
  split; [|done]. constructor; [by eexists|constructor].
Qed.

Lemma register_album_done e dir skip : snd (register_album e dir skip) = Done tt.
Proof.
  unfold register_album. destruct skip; [done|].
  destruct (which e (str "quodlibet")); [|done]. simpl.
  by destruct (quodlibet_running e).
Qed.

Lemma register_album_quiet e dir skip : created (fst (register_album e dir skip)) = [].
Proof.
  unfold register_album. destruct skip; [done|].
  destruct (which e (str "quodlibet")); [|done]. simpl.
  by destruct (quodlibet_running e).
Qed.

Lemma register_album_commands e dir skip cmd :
  In cmd (commands (fst (register_album e dir skip))) ->
  skip = false /\ which e (str "quodlibet") = true
  /\ (cmd = [str "pgrep"; str "-x"; str "quodlibet"]
      \/ quodlibet_running e = true /\ exists arg, cmd = [str "quodlibet"; arg]).
Proof.
  unfold register_album. destruct skip; [done|].
  destruct (which e (str "quodlibet")); [|done]. cbn [negb].
  destruct (quodlibet_running e); unfold bind, emit; cbn [fst app commands In];
    intros H; (split; [done|split; [done|]]).
  - destruct H as [<-|[<-|[<-|[]]]]; [by left|right..]; (split; [done|by eexists]).
  - destruct H as [<-|[]]. by left.
Qed.

Lemma move_and_tag_no_command e result out ao aro :
  commands (fst (move_and_tag e result out ao aro)) = [].
Proof.
  destruct (DownloadResult.downloaded_files result) as [|f files] eqn:Hf.
  - unfold move_and_tag. by rewrite Hf.
  - rewrite move_and_tag_trace by (by rewrite Hf).
    cbn [fst commands]. rewrite commands_app. cbn [commands].
    rewrite app_nil_r. apply commands_none.
    eapply List.Forall_impl; [|apply steps_are_track_steps].
    intros ev H c ->. exact H.
Qed.

(** The run of [main] once the tools are there and the fetch has left
    files. *)
Lemma main_success e a t0 result :
  which e (str "yt-dlp") = true -> which e (str "ffmpeg") = true ->
  dry_run_flag a = false ->
  download_playlist e (url a) None = (t0, Done result) ->
  DownloadResult.downloaded_files result <> [] ->
  main e a
  = ((Print (str "Extracting playlist info...") :: t0
        ++ Print (10 :: str "Downloaded "
                  ++ decimal (length (DownloadResult.downloaded_files result))
                  ++ str " tracks from '"
                  ++ PlaylistInfo.title (DownloadResult.playlist_info result)
                  ++ str "'")
        :: Print (10 :: str "Tagging and organizing files...")
        :: fst (move_and_tag e result (output_dir a) (album_name a) (artist_name a))
        ++ Print (10 :: str "Album saved to: "
                  ++ Path.render (album_dir_of e result (output_dir a)
                                    (album_name a) (artist_name a)))
        :: fst (register_album e (album_dir_of e result (output_dir a)
                                    (album_name a) (artist_name a))
                               (no_quodlibet a)))
       ++ [Print (10 :: str "Done!")],
     Done tt).
Proof.
  intros Hy Hf Hdry Hdl Hne.
  destruct (check_dependencies_cases e) as [(_ & _ & Hdeps)|([H|H] & _)];
    [|congruence..].
  unfold main. rewrite Hdeps, Hdry. unfold emit.
  rewrite bind_pair. cbn [fst snd app].
  rewrite bind_pair. cbn [fst snd app].
  rewrite Hdl, bind_pair. cbn [fst snd app].
  rewrite bind_pair. cbn [fst snd app].
  destruct (DownloadResult.downloaded_files result) as [|f files] eqn:Hfiles; [done|].
  rewrite <- Hfiles in *.
  rewrite bind_pair. cbn [fst snd app].
  rewrite (move_and_tag_trace e result (output_dir a) (album_name a) (artist_name a) Hne).
  rewrite bind_pair. cbn [fst snd app].
  rewrite bind_pair. cbn [fst snd app].
  pose proof (register_album_done e (album_dir_of e result (output_dir a)
                (album_name a) (artist_name a)) (no_quodlibet a)) as Hreg.
  destruct (register_album e _ (no_quodlibet a)) as [tr o].
  cbn [snd] in Hreg. subst o.
  rewrite bind_pair. cbn [fst snd app].
  repeat (rewrite <- app_assoc; cbn [app]). reflexivity.
Qed.

(** X15. When [yt-dlp] or [ffmpeg] is not installed, the run does nothing
    but print two lines to the error stream, the first naming the missing
    tools, and leaves through [sys.exit(1)]: whatever the arguments are, no
    playlist is read and nothing is created. *)
Theorem missing_tool_stops_run (e : env) (a : args) :
  which e (str "yt-dlp") = false \/ which e (str "ffmpeg") = false ->
  exists names,
    main e a
    = ([PrintErr (str "Error: missing required tools: " ++ names);
        PrintErr (str "Install with: sudo apt install -y yt-dlp ffmpeg")],
       Exit 1)
    /\ In names [str "yt-dlp"; str "ffmpeg"; str "yt-dlp, ffmpeg"].
Proof.
  intros Hmiss.
  destruct (check_dependencies_cases e) as [(Hy & Hf & _)|(_ & names & Hdeps & Hn)].
  - destruct Hmiss; congruence.
  - exists names. split; [|done]. unfold main. by rewrite Hdeps.
Qed.

Lemma missing_tool_stops_run_witness :
  exists names,
    main world_without_ffmpeg Demo.cli
    = ([PrintErr (str "Error: missing required tools: " ++ names);
        PrintErr (str "Install with: sudo apt install -y yt-dlp ffmpeg")],
       Exit 1)
    /\ In names [str "yt-dlp"; str "ffmpeg"; str "yt-dlp, ffmpeg"].
Proof.
  apply (missing_tool_stops_run world_without_ffmpeg Demo.cli).
  right. reflexivity.
Defined.

(** X16. A run with [--dry-run] only prints: it creates no directory,
    tags and moves no file, writes no log and runs no command; and it leaves
    through [sys.exit] only when a required tool is missing. *)
Theorem dry_run_only_prints (e : env) (a : args) :
  dry_run_flag a = true ->
  Forall is_output (fst (main e a))
  /\ forall code, snd (main e a) = Exit code ->
       which e (str "yt-dlp") = false \/ which e (str "ffmpeg") = false.
Proof.
  intros Hdry. unfold main. rewrite Hdry.
  destruct (check_dependencies_cases e) as [(_ & _ & Hdeps)|(Hmiss & names & Hdeps & _)];
    rewrite Hdeps.
  - rewrite bind_pair. cbn [app].
    destruct (dry_run_output e (url a)) as (Ht & Ho).
    destruct (dry_run e (url a)) as [t o]. split; [exact Ht|].
    intros code H. by destruct (Ho code).
  - split; [by repeat constructor|]. by intros _ _.
Qed.

Lemma dry_run_only_prints_witness :
  Forall is_output (fst (main Demo.world cli_listing)).
Proof.
  refine (proj1 (dry_run_only_prints Demo.world cli_listing _)). reflexivity.
Defined.

(** X17. The only commands a run starts are those of the registration
    with Quod Libet: any command run means that the run was not a dry run,
    that [--no-quodlibet] was not given and that [quodlibet] is installed;
    the command is the [pgrep] probe, or, when the player is running, an
    invocation of [quodlibet] with one argument. *)
Theorem commands_only_for_quodlibet (e : env) (a : args) (cmd : list pystr) :
  In cmd (commands (fst (main e a))) ->
  dry_run_flag a = false /\ no_quodlibet a = false
  /\ which e (str "quodlibet") = true
  /\ (cmd = [str "pgrep"; str "-x"; str "quodlibet"]
      \/ quodlibet_running e = true /\ exists arg, cmd = [str "quodlibet"; arg]).
Proof.
  assert (Hout : forall t, Forall is_output t -> commands t = []).
  { intros t Ht. apply commands_none. eapply List.Forall_impl; [|exact Ht].
    intros ev H c ->. exact H. }
  destruct (check_dependencies_cases e) as [(Hy & Hf & Hdeps)|(_ & names & Hdeps & _)].
  2:{ unfold main. by rewrite Hdeps. }
  destruct (dry_run_flag a) eqn:Hdry.
  { unfold main. rewrite Hdeps, Hdry, bind_pair. cbn [app fst].
    by rewrite (Hout _ (proj1 (dry_run_output e (url a)))). }
  destruct (download_playlist_trace e (url a) None) as (Hdir & Hex).
  assert (Hdl : commands (fst (download_playlist e (url a) None)) = []).
  { apply commands_none. eapply List.Forall_impl; [|exact Hdir].
    by intros ev (d & ->) c. }
  destruct (download_playlist e (url a) None) as [t0 [result|code|exc]] eqn:Hrun;
    cbn [fst snd] in Hdl, Hex.
  - destruct (DownloadResult.downloaded_files result) as [|f files] eqn:Hfiles.
    + unfold main. rewrite Hdeps, Hdry. unfold emit.
      rewrite bind_pair. cbn [fst snd app].
      rewrite bind_pair. cbn [fst snd app].
      rewrite Hrun, bind_pair. cbn [fst snd app].
      rewrite bind_pair, Hfiles. cbn [fst snd app bind sys_exit commands].
      rewrite commands_app, Hdl. by cbn.
    + rewrite (main_success e a t0 result Hy Hf Hdry Hrun) by (by rewrite Hfiles).
      cbn [fst]. rewrite commands_app. cbn [commands].
      rewrite commands_app, Hdl. cbn [commands app].
      rewrite commands_app, move_and_tag_no_command. cbn [commands app].
      rewrite app_nil_r.
      intros H. apply register_album_commands in H as (Hs & H). by split.
  - by destruct (Hex code).
  - unfold main. rewrite Hdeps, Hdry. unfold emit.
    rewrite bind_pair. cbn [fst snd app].
    rewrite bind_pair, Hrun. cbn [fst snd app bind commands]. by rewrite Hdl.
Qed.

Lemma commands_only_for_quodlibet_witness :
  In [str "pgrep"; str "-x"; str "quodlibet"]
     (commands (fst (main Demo.world cli_registering)))
  /\ no_quodlibet cli_registering = false
  /\ which Demo.world (str "quodlibet") = true.
Proof.
  assert (H : In [str "pgrep"; str "-x"; str "quodlibet"]
                 (commands (fst (main Demo.world cli_registering)))).
  { vm_compute. left. reflexivity. }
  split; [exact H|].
  destruct (commands_only_for_quodlibet Demo.world cli_registering _ H)
    as (_ & H1 & H2 & _).
  exact (conj H1 H2).
Defined.

(** X18. With both tools installed and at least one audio file fetched,
    the run completes normally, whatever the registration with the player
    does; its last line is [Done!], it has created the staging directory
    and then the album directory and no other, and it has moved as many
    files as were fetched. *)
Theorem main_completes (e : env) (a : args) (t0 : list event)
    (result : DownloadResult.t) :
  which e (str "yt-dlp") = true -> which e (str "ffmpeg") = true ->
  dry_run_flag a = false ->
  download_playlist e (url a) None = (t0, Done result) ->
  DownloadResult.downloaded_files result <> [] ->
  exists t,
    main e a = (t ++ [Print (10 :: str "Done!")], Done tt)
    /\ created t = [mkdtemp e;
                    album_dir_of e result (output_dir a) (album_name a) (artist_name a)]
    /\ length (moves t) = length (DownloadResult.downloaded_files result).
Proof.
  intros Hy Hf Hdry Hdl Hne.
  rewrite (main_success e a t0 result Hy Hf Hdry Hdl Hne).
  eexists. split; [reflexivity|].
  destruct (download_playlist_done e (url a) t0 result Hdl) as (Hdirs & _).
  destruct (download_playlist_trace e (url a) None) as (Hmk & _).
  rewrite Hdl in Hmk. cbn [fst] in Hmk.
  assert (Hm0 : moves t0 = []).
  { clear -Hmk. induction Hmk as [|ev t (d & ->) _ IH]; [done|]. exact IH. }
  assert (Hmr : forall d s, moves (fst (register_album e d s)) = []).
  { intros d s. unfold register_album. destruct s; [done|].
    destruct (which e (str "quodlibet")); [|done]. simpl.
    by destruct (quodlibet_running e). }
  split.
  - cbn [created]. rewrite created_app, Hdirs. cbn [created app].
    rewrite created_app. cbn [created]. rewrite register_album_quiet.
    destruct (move_and_tag_done e result (output_dir a) (album_name a) (artist_name a) Hne)
      as (t & dir & log & Hrun & _ & _ & _ & _ & Hcr).
    rewrite Hrun. cbn [fst]. rewrite Hcr, app_nil_r.
    rewrite (move_and_tag_trace e result (output_dir a) (album_name a) (artist_name a) Hne)
      in Hrun.
    by inversion Hrun.
  - cbn [moves]. rewrite moves_app, Hm0. cbn [moves app].
    rewrite moves_app. cbn [moves]. rewrite Hmr, app_nil_r.
    rewrite (moves_of_run e result (output_dir a) (album_name a) (artist_name a) Hne).
    rewrite length_map, length_combine, length_map, entries_from_length.
    rewrite Nat.min_id. unfold pairs_of. by rewrite pair_up_length.
Qed.

Lemma main_completes_witness :
  exists t,
    main Demo.world Demo.cli = (t ++ [Print (10 :: str "Done!")], Done tt)
    /\ created t = [Demo.staging;
                    album_dir_of Demo.world Demo.fetched (output_dir Demo.cli) None None].
Proof.
  destruct (main_completes Demo.world Demo.cli
              (fst (download_playlist Demo.world (url Demo.cli) None)) Demo.fetched)
    as (t & H1 & H2 & _).
  - reflexivity.
  - reflexivity.
  - reflexivity.
  - vm_compute. reflexivity.
  - discriminate.
  - exists t. exact (conj H1 H2).
Defined.

(** X19. When the playlist cannot be read, the run ends with an exception
    ([ValueError] from the URL or [RuntimeError] from the extraction) having
    only printed: the staging directory is not created, since the playlist
    is read before it is. *)
Theorem unreadable_playlist_changes_nothing (e : env) (a : args) :
  which e (str "yt-dlp") = true -> which e (str "ffmpeg") = true ->
  (forall u, extract_info e u = None) ->
  exists t exc,
    main e a = (t, Raise exc)
    /\ Forall is_output t
    /\ (exc = str "ValueError" \/ exc = str "RuntimeError").
Proof.
  intros Hy Hf Hoff.
  destruct (check_dependencies_cases e) as [(_ & _ & Hdeps)|([H|H] & _)];
    [|congruence..].
  unfold main. rewrite Hdeps, bind_pair. cbn [app fst snd].
  destruct (dry_run_flag a).
  - unfold dry_run, extract_playlist_info.
    destruct (normalize_playlist_url (host_check e) (url a)) as [u1|].
    + rewrite Hoff. eexists _, _. split; [reflexivity|]. split; [constructor|by right].
    + eexists _, _. split; [reflexivity|]. split; [constructor|by left].
  - unfold emit. rewrite bind_pair. cbn [fst snd app].
    unfold download_playlist, extract_playlist_info.
    destruct (normalize_playlist_url (host_check e) (url a)) as [u1|].
    + destruct (normalize_playlist_url (host_check e) u1) as [u2|].
      * rewrite Hoff. eexists _, _. split; [reflexivity|].
        split; [by repeat constructor|by right].
      * eexists _, _. split; [reflexivity|]. split; [by repeat constructor|by left].
    + eexists _, _. split; [reflexivity|]. split; [by repeat constructor|by left].
Qed.

Lemma unreadable_playlist_changes_nothing_witness :
  exists t exc, main world_offline Demo.cli = (t, Raise exc) /\ Forall is_output t.
Proof.
  destruct (unreadable_playlist_changes_nothing world_offline Demo.cli)
    as (t & exc & H1 & H2 & _).
  - reflexivity.
  - reflexivity.
  - reflexivity.
  - exists t, exc. exact (conj H1 H2).
Defined.

(** ** Canonical playlist URLs *)

Lemma filter_plain (s : pystr) :
  forallb plain_in_query s = true ->
  List.filter (fun c => negb ((c =? 9) || (c =? 13) || (c =? 10))) s = s.
Proof.
  induction s as [|c s IH]; [done|]. simpl. intros H.
  apply andb_true_iff in H as [Hc H]. rewrite (IH H).
  unfold plain_in_query in Hc.
  destruct (c =? 9), (c =? 10), (c =? 13); try discriminate. done.
Qed.

Lemma split_once_none (sep : N) (s : pystr) : forall before,
  forallb (fun c => negb (c =? sep)) s = true ->
  Url.split_once sep s before = None.
Proof.
  induction s as [|c s IH]; intros before H; [done|]. simpl in *.
  apply andb_true_iff in H as [Hc H].
  destruct (c =? sep); [done|]. by apply IH.
Qed.

Lemma split_on_none (sep : N) (s : pystr) : forall piece,
  forallb (fun c => negb (c =? sep)) s = true ->
  Url.split_on sep s piece = [rev piece ++ s].
Proof.
  induction s as [|c s IH]; intros piece H; simpl in *.
  - by rewrite app_nil_r.
  - apply andb_true_iff in H as [Hc H].
    destruct (c =? sep); [done|]. rewrite (IH _ H). simpl.
    by rewrite <- app_assoc.
Qed.

Lemma replace_char_none (old new : N) (s : pystr) :
  forallb (fun c => negb (c =? old)) s = true ->
  Url.replace_char old new s = s.
Proof.
  induction s as [|c s IH]; [done|]. simpl. intros H.
  apply andb_true_iff in H as [Hc H]. rewrite (IH H).
  by destruct (c =? old).
Qed.

Lemma unquote_none (s : pystr) :
  forallb (fun c => negb (c =? 37)) s = true -> Url.unquote s = s.
Proof.
  intros H. unfold Url.unquote.
  assert (He : existsb (N.eqb 37) s = false).
  { induction s as [|c s IH]; [done|]. cbn [existsb forallb] in *.
    apply andb_true_iff in H as [Hc H]. rewrite (IH H), orb_false_r.
    apply negb_true_iff in Hc. by rewrite N.eqb_sym. }
  by rewrite He.
Qed.

Lemma plain_forall (k : N) (s : pystr) :
  plain_in_query k = false ->
  forallb plain_in_query s = true ->
  forallb (fun c => negb (c =? k)) s = true.
Proof.
  intros Hk H. induction s as [|c s IH]; [done|]. simpl in *.
  apply andb_true_iff in H as [Hc H]. rewrite (IH H), andb_true_r.
  destruct (N.eqb_spec c k) as [->|]; [congruence|done].
Qed.

Lemma normalize_canonical (host_check : pystr -> bool) (list_id : pystr) :
  forallb plain_in_query list_id = true ->
  normalize_playlist_url host_check
    (str "https://www.youtube.com/playlist?list=" ++ list_id)
  = Some (str "https://www.youtube.com/playlist?list=" ++ list_id).
Proof.
  intros Hplain.
  assert (Hs : forall k, plain_in_query k = false ->
                 forallb (fun c => negb (c =? k)) list_id = true)
    by (intros k Hk; by apply plain_forall).
  assert (Hq : Url.url_query host_check
                 (str "https://www.youtube.com/playlist?list=" ++ list_id)
               = Some (str "list=" ++ list_id)).
  { unfold Url.url_query.
    change (Url.lstrip_c0 (str "https://www.youtube.com/playlist?list=" ++ list_id))
      with (str "https://www.youtube.com/playlist?list=" ++ list_id).
    rewrite List.filter_app, (filter_plain list_id Hplain).
    change (List.filter _ (str "https://www.youtube.com/playlist?list="))
      with (str "https://www.youtube.com/playlist?list=").
    change (Url.drop_scheme (str "https://www.youtube.com/playlist?list=" ++ list_id))
      with (47 :: 47 :: str "www.youtube.com/playlist?list=" ++ list_id).
    cbv iota beta.
    change (Url.until_delim (str "www.youtube.com/playlist?list=" ++ list_id))
      with (str "www.youtube.com", str "/playlist?list=" ++ list_id).
    cbv iota beta.
    change (Url.split_once 35 (str "/playlist?list=" ++ list_id) [])
      with (Url.split_once 35 list_id (rev (str "/playlist?list="))).
    rewrite (split_once_none 35 list_id) by (by apply Hs).
    reflexivity. }
  unfold normalize_playlist_url. rewrite Hq.
  destruct list_id as [|c rest]; [reflexivity|].
  assert (Hp : Url.parse_qsl (str "list=" ++ c :: rest) = [(str "list", c :: rest)]).
  { unfold Url.parse_qsl.
    change (str "list=" ++ c :: rest) with (108 :: (str "ist=" ++ c :: rest)).
    cbv iota.
    change (Url.split_on 38 (108 :: str "ist=" ++ c :: rest) [])
      with (Url.split_on 38 (c :: rest) (rev (str "list="))).
    rewrite (split_on_none 38 (c :: rest)) by (by apply Hs).
    change (rev (rev (str "list=")) ++ c :: rest)
      with (108 :: (str "ist=" ++ c :: rest)).
    cbn [flat_map app].
    change (Url.split_once 61 (108 :: str "ist=" ++ c :: rest) [])
      with (Some (str "list", c :: rest)).
    cbv iota beta.
    rewrite (replace_char_none 43 32 (c :: rest)) by (by apply Hs).
    rewrite (unquote_none (c :: rest)) by (by apply Hs).
    reflexivity. }
  rewrite Hp. reflexivity.
Qed.

(** X20. A canonical playlist URL whose list id has none of TAB, LF, CR,
    [#], [%], [&] and [+] (the empty id included) is a fixed point of
    [normalize_playlist_url]: normalising it returns it unchanged. *)
Theorem canonical_url_fixed_point (host_check : pystr -> bool) (list_id : pystr) :
  forallb plain_in_query list_id = true ->
  normalize_playlist_url host_check
    (str "https://www.youtube.com/playlist?list=" ++ list_id)
  = Some (str "https://www.youtube.com/playlist?list=" ++ list_id).
Proof. apply normalize_canonical. Qed.

Lemma canonical_url_fixed_point_witness :
  normalize_playlist_url (fun _ => true)
    (str "https://www.youtube.com/playlist?list=" ++ str "PLroad")
  = Some (str "https://www.youtube.com/playlist?list=" ++ str "PLroad").
Proof.
  apply (canonical_url_fixed_point (fun _ => true) (str "PLroad")).
  reflexivity.
Defined.

Lemma download_playlist_url e u temp_dir t r :
  download_playlist e u temp_dir = (t, Done r) ->
  exists u1 u2,
    normalize_playlist_url (host_check e) u = Some u1
    /\ normalize_playlist_url (host_check e) u1 = Some u2
    /\ PlaylistInfo.url (DownloadResult.playlist_info r) = u2.
Proof.
  unfold download_playlist, extract_playlist_info.
  destruct (normalize_playlist_url (host_check e) u) as [u1|] eqn:H1; [|discriminate].
  destruct (normalize_playlist_url (host_check e) u1) as [u2|] eqn:H2; [|discriminate].
  destruct (extract_info e u2) as [raw|]; [|discriminate].
  unfold bind, emit, ret. simpl.
  destruct (collect _) as [opus json]. intros H. inversion H; subst.
  exists u1, u2. split; [reflexivity|]. split; [exact H2|reflexivity].
Qed.

(** X21. When the URL normalises to a canonical URL whose list id has none
    of TAB, LF, CR, [#], [%], [&] and [+], the URL recorded in the result of
    the download (normalised once more by [extract_playlist_info]) is that
    canonical URL. *)
Theorem recorded_url_canonical (e : env) (u : pystr) (temp_dir : option path)
    (t : list event) (r : DownloadResult.t) (list_id : pystr) :
  normalize_playlist_url (host_check e) u
  = Some (str "https://www.youtube.com/playlist?list=" ++ list_id) ->
  forallb plain_in_query list_id = true ->
  download_playlist e u temp_dir = (t, Done r) ->
  PlaylistInfo.url (DownloadResult.playlist_info r)
  = str "https://www.youtube.com/playlist?list=" ++ list_id.
Proof.
  intros Hu Hplain Hrun.
  destruct (download_playlist_url e u temp_dir t r Hrun) as (u1 & u2 & H1 & H2 & ->).
  assert (E1 : u1 = str "https://www.youtube.com/playlist?list=" ++ list_id)
    by congruence.
  subst u1. pose proof (normalize_canonical (host_check e) list_id Hplain) as Hfix.
  congruence.
Qed.

Lemma recorded_url_canonical_witness :
  PlaylistInfo.url (DownloadResult.playlist_info Demo.fetched)
  = str "https://www.youtube.com/playlist?list=" ++ str "PLroad".
Proof.
  apply (recorded_url_canonical Demo.world (url Demo.cli) None
           (fst (download_playlist Demo.world (url Demo.cli) None))
           Demo.fetched (str "PLroad")).
  - vm_compute. reflexivity.
  - reflexivity.
  - vm_compute. reflexivity.
Defined.

